(** * River crossing puzzle: a model of [river_crossing.py]

    The Python program keeps one game object whose [state] refers to a
    dictionary (entity name to bank) and to a list (the history of moves).
    Both are mutable objects shared by reference: [GameState.copy] makes fresh
    ones, [make_move] and the search update them in place.  The model below
    therefore keeps an explicit object store and threads it through a small
    state-and-exception monad. *)

From stdpp Require Import base decidable option numbers list strings countable gmap sets.

Open Scope string_scope.
Open Scope list_scope.
Open Scope nat_scope.

(** ** class Bank *)

Inductive Bank := LEFT | RIGHT.

#[global] Instance Bank_eq_dec : EqDecision Bank.
Proof. solve_decision. Defined.

#[global] Instance Bank_countable : Countable Bank.
Proof.
  refine (inj_countable' (λ b, match b with LEFT => false | RIGHT => true end)
                         (λ x : bool, if x then RIGHT else LEFT) _).
  by intros [].
Defined.

(** [Bank.opposite]: [Bank.RIGHT if self == Bank.LEFT else Bank.LEFT]. *)
Definition opposite (self : Bank) : Bank :=
  if decide (self = LEFT) then RIGHT else LEFT.

(** ** Python dictionaries [Dict[str, Bank]]

    A dictionary iterates in insertion order and the search depends on that
    order, so a dictionary is an association list.  Python keeps the keys
    distinct; [dict_set] preserves that. *)

Definition Dict := list (string * Bank).

(** [k in d] *)
Definition dict_contains (d : Dict) (k : string) : bool :=
  bool_decide (k ∈ d.*1).

(** [d[k]] on a present key; [None] stands for the [KeyError]. *)
Fixpoint dict_get (d : Dict) (k : string) : option Bank :=
  match d with
  | [] => None
  | (k', v) :: d' => if decide (k' = k) then Some v else dict_get d' k
  end.

(** [d[k] = v]: an existing key keeps its place, a new key goes last. *)
Fixpoint dict_set (d : Dict) (k : string) (v : Bank) : Dict :=
  match d with
  | [] => [(k, v)]
  | (k', v') :: d' =>
      if decide (k' = k) then (k', v) :: d' else (k', v') :: dict_set d' k v
  end.

(** ** Moves, game states, the game object and the store *)

(** A history entry [(item, bank)]: who crossed with the farmer (['Farmer']
    when he crossed alone) and the bank they arrived at. *)
Definition Move := (string * Bank)%type.

(** References to objects of the store. *)
Definition loc := nat.

(** [GameState]: the two fields are references; the fields themselves are
    never reassigned, the objects they refer to are updated in place. *)
Record GameState := mkGameState {
  positions : loc;   (* a dict object *)
  history : loc      (* a list object *)
}.

(** The fields of the [RiverCrossingGame] object. *)
Record RiverCrossingGame := mkGame {
  state : GameState;
  move_count : nat;
  _cached_solutions : option (gset Move)
}.

(** The store: the game object, the dict objects and the list objects. *)
Record Store := mkStore {
  this : RiverCrossingGame;
  dicts : list Dict;
  lists : list (list Move)
}.

(** ** The monad: state, Python exceptions, and the model's own aborts *)

Inductive exn := KeyError (key : string).

(** [OutOfFuel]: the recursion bound of the model was reached.
    [DanglingRef]: a reference to no object, which Python cannot produce. *)
Inductive abort := OutOfFuel | DanglingRef.

Inductive outcome (A : Type) :=
  | Ok (a : A) (σ : Store)
  | Raised (e : exn) (σ : Store)
  | Abort (why : abort).
Arguments Ok {A} a σ.
Arguments Raised {A} e σ.
Arguments Abort {A} why.

Definition M (A : Type) := Store → outcome A.

Definition ret {A} (a : A) : M A := λ σ, Ok a σ.

Definition bind {A B} (m : M A) (k : A → M B) : M B :=
  λ σ, match m σ with
       | Ok a σ' => k a σ'
       | Raised e σ' => Raised e σ'
       | Abort w => Abort w
       end.

Definition raise {A} (e : exn) : M A := λ σ, Raised e σ.
Definition stop {A} (w : abort) : M A := λ _, Abort w.

Notation "'let*' x := m 'in' k" := (bind m (λ x, k))
  (at level 10, x pattern, m at level 100, k at level 200, only parsing).
Notation "m ;;; k" := (bind m (λ _, k))
  (at level 100, k at level 200, right associativity, only parsing).

(** *** Primitive operations on the store *)

Definition get_self : M RiverCrossingGame := λ σ, Ok (this σ) σ.

Definition set_self (g : RiverCrossingGame) : M unit :=
  λ σ, Ok tt (mkStore g (dicts σ) (lists σ)).

Definition read_dict (r : loc) : M Dict :=
  λ σ, match dicts σ !! r with Some d => Ok d σ | None => Abort DanglingRef end.

Definition write_dict (r : loc) (d : Dict) : M unit :=
  λ σ, match dicts σ !! r with
       | Some _ => Ok tt (mkStore (this σ) (<[r := d]> (dicts σ)) (lists σ))
       | None => Abort DanglingRef
       end.

Definition alloc_dict (d : Dict) : M loc :=
  λ σ, Ok (length (dicts σ)) (mkStore (this σ) (dicts σ ++ [d]) (lists σ)).

Definition read_list (r : loc) : M (list Move) :=
  λ σ, match lists σ !! r with Some l => Ok l σ | None => Abort DanglingRef end.

Definition write_list (r : loc) (l : list Move) : M unit :=
  λ σ, match lists σ !! r with
       | Some _ => Ok tt (mkStore (this σ) (dicts σ) (<[r := l]> (lists σ)))
       | None => Abort DanglingRef
       end.

Definition alloc_list (l : list Move) : M loc :=
  λ σ, Ok (length (lists σ)) (mkStore (this σ) (dicts σ) (lists σ ++ [l])).

(** *** Python operations on dict and list objects *)

(** [d[k]], raising [KeyError] on a missing key. *)
Definition subscript (d : Dict) (k : string) : M Bank :=
  match dict_get d k with
  | Some v => ret v
  | None => raise (KeyError k)
  end.

Definition getitem (r : loc) (k : string) : M Bank :=
  let* d := read_dict r in
  subscript d k.

(** [d[k] = v] *)
Definition setitem (r : loc) (k : string) (v : Bank) : M unit :=
  let* d := read_dict r in
  write_dict r (dict_set d k v).

(** [l.append(x)] *)
Definition append (r : loc) (x : Move) : M unit :=
  let* l := read_list r in
  write_list r (l ++ [x]).

(** ** class GameState *)

(** [GameState.copy]: a new dict object and a new list object with the
    contents of the old ones. *)
Definition copy (self : GameState) : M GameState :=
  let* p := read_dict (positions self) in
  let* p' := alloc_dict p in
  let* h := read_list (history self) in
  let* h' := alloc_list h in
  ret (mkGameState p' h').

(** ** class RiverCrossingGame *)

Definition initial_positions : Dict :=
  [("Farmer", LEFT); ("Fox", LEFT); ("Chicken", LEFT); ("Grain", LEFT)].

(** [__init__]: all items on the left bank, no history, no cached solution. *)
Definition __init__ : M unit :=
  let* p := alloc_dict initial_positions in
  let* h := alloc_list [] in
  set_self (mkGame (mkGameState p h) 0 None).

(** [[item for item, pos in d.items() if pos == bank]] *)
Definition items_at (d : Dict) (bank : Bank) : list string :=
  (filter (λ e, e.2 = bank) d).*1.

Definition get_items_at_bank (bank : Bank) : M (list string) :=
  let* self := get_self in
  let* d := read_dict (positions (state self)) in
  ret (items_at d bank).

(** [x in l] on a list of strings *)
Definition In_list (x : string) (l : list string) : bool := bool_decide (x ∈ l).

(** [is_valid_state]; the two [print] calls write to the terminal only and
    are left out. *)
Definition is_valid_state : M bool :=
  let* self := get_self in
  let* farmer_bank := getitem (positions (state self)) "Farmer" in
  let opposite_bank := opposite farmer_bank in
  let* items_without_farmer := get_items_at_bank opposite_bank in
  if In_list "Fox" items_without_farmer && In_list "Chicken" items_without_farmer
  then ret false
  else if In_list "Chicken" items_without_farmer && In_list "Grain" items_without_farmer
  then ret false
  else ret true.

(** [all(pos == Bank.RIGHT for pos in d.values())] *)
Definition all_right (d : Dict) : bool :=
  forallb (λ e, bool_decide (e.2 = RIGHT)) d.

Definition is_won : M bool :=
  let* self := get_self in
  let* d := read_dict (positions (state self)) in
  ret (all_right d).

(** The value [item] stands for where Python tests [if item]: [None] and the
    empty string are both false there. *)
Definition truthy_item (item : option string) : option string :=
  match item with
  | Some s => if decide (s = "") then None else Some s
  | None => None
  end.

(** [make_move]; the [print] calls are left out. *)
Definition make_move (item : option string) : M bool :=
  let* self := get_self in
  let pos := positions (state self) in
  let* d := read_dict pos in
  if (match truthy_item item with
      | Some it => negb (dict_contains d it)
      | None => false
      end)
  then ret false
  else
    let* current_bank := getitem pos "Farmer" in
    let* elsewhere :=
      match truthy_item item with
      | Some it =>
          let* b := getitem pos it in
          ret (bool_decide (b ≠ current_bank))
      | None => ret false
      end in
    if elsewhere then ret false
    else
      (* Make the move *)
      let next_bank := opposite current_bank in
      setitem pos "Farmer" next_bank ;;;
      match truthy_item item with
      | Some it =>
          setitem pos it next_bank ;;;
          append (history (state self)) (it, next_bank)
      | None =>
          append (history (state self)) ("Farmer", next_bank)
      end ;;;
      let* self := get_self in
      set_self (mkGame (state self) (move_count self + 1) (_cached_solutions self)) ;;;
      ret true.

(** [_is_valid_state(positions)], the static helper of the search. *)
Definition _is_valid_state (positions : loc) : M bool :=
  let* farmer_bank := getitem positions "Farmer" in
  let opposite_bank := if decide (farmer_bank = LEFT) then RIGHT else LEFT in
  let* d := read_dict positions in
  let items_without_farmer :=
    (filter (λ e, e.2 = opposite_bank ∧ e.1 ≠ "Farmer") d).*1 in
  if In_list "Fox" items_without_farmer && In_list "Chicken" items_without_farmer
  then ret false
  else if In_list "Chicken" items_without_farmer && In_list "Grain" items_without_farmer
  then ret false
  else ret true.

(** ** The search of [solve] *)

(** [frozenset((item, pos) for item, pos in d.items())] *)
Abbreviation Key := (gset (string * Bank)).
Abbreviation Visited := (gset Key).

Definition state_key (d : Dict) : Key := list_to_set d.

(** Python's test [if result] on an [Optional[List]]: [None] and the empty
    list are false. *)
Definition truthy (result : option loc) : M bool :=
  match result with
  | None => ret false
  | Some r => let* l := read_list r in ret (bool_decide (l ≠ []))
  end.

(** The [for item in items_with_farmer] loop of [dfs], with [rec] the
    recursive call; the result [None] at the end of the list is the
    [return None] that follows the loop.  The set [visited] is one object that
    every call updates in place, so each call hands it on. *)
Fixpoint dfs_items (rec : GameState → Visited → M (option loc * Visited))
    (state : GameState) (farmer_bank : Bank) (items : list string)
    (visited : Visited) : M (option loc * Visited) :=
  match items with
  | [] => ret (None, visited)
  | item :: items =>
      let* next_state := copy state in
      setitem (positions next_state) "Farmer" (opposite farmer_bank) ;;;
      setitem (positions next_state) item (opposite farmer_bank) ;;;
      append (history next_state) (item, opposite farmer_bank) ;;;
      let* valid := _is_valid_state (positions next_state) in
      if valid then
        let* (result, visited) := rec next_state visited in
        let* t := truthy result in
        if t then ret (result, visited)
        else dfs_items rec state farmer_bank items visited
      else dfs_items rec state farmer_bank items visited
  end.

(** The nested function [dfs] of [solve].  [fuel] bounds the depth of the
    recursion; [dfs_total] shows that a bound past the number of
    configurations is never reached. *)
Fixpoint dfs (fuel : nat) (state : GameState) (visited : Visited)
    : M (option loc * Visited) :=
  match fuel with
  | 0 => stop OutOfFuel
  | S fuel =>
      let* d := read_dict (positions state) in
      if all_right d then ret (Some (history state), visited)
      else
        (* Create a frozen set of current positions for visited checking *)
        let key := state_key d in
        if decide (key ∈ visited) then ret (None, visited)
        else
          let visited := visited ∪ {[key]} in
          let* farmer_bank := getitem (positions state) "Farmer" in
          let items_with_farmer :=
            (filter (λ e, e.2 = farmer_bank ∧ e.1 ≠ "Farmer") d).*1 in
          (* Try moving farmer alone *)
          let* next_state := copy state in
          setitem (positions next_state) "Farmer" (opposite farmer_bank) ;;;
          append (history next_state) ("Farmer", opposite farmer_bank) ;;;
          (* Check if next state is valid *)
          let* valid := _is_valid_state (positions next_state) in
          let* (found, visited) :=
            if valid then
              let* (result, visited) := dfs fuel next_state visited in
              let* t := truthy result in
              ret (if t then result else None, visited)
            else ret (None, visited) in
          match found with
          | Some r => ret (Some r, visited)
          | None =>
              (* Try moving farmer with each possible item *)
              dfs_items (dfs fuel) state farmer_bank items_with_farmer visited
          end
  end.

Section Solve.

(** [list(s)] on a set iterates in an order the language leaves open (it
    follows the hashes of the elements).  [set_order] is that order. *)
Variable set_order : gset Move → list Move.

(** The body of [solve] past the cache test. *)
Definition solve_search (fuel : nat) : M (option loc) :=
  let* self := get_self in
  let* (solution, _) := dfs fuel (state self) ∅ in
  let* t := truthy solution in
  match solution with
  | Some r =>
      (if t then
         let* l := read_list r in
         let* self := get_self in
         set_self (mkGame (state self) (move_count self) (Some (list_to_set l)))
       else ret tt) ;;;
      ret solution
  | None => ret solution
  end.

Definition solve_with (fuel : nat) : M (option loc) :=
  let* self := get_self in
  match _cached_solutions self with
  | Some s =>
      if bool_decide (s ≠ ∅) then
        let* r := alloc_list (set_order s) in
        ret (Some r)
      else solve_search fuel
  | None => solve_search fuel
  end.

(** A depth that the search cannot reach: one more than the number of ways
    to place the entities of the dictionary on two banks. *)
Definition search_bound (σ : Store) : nat :=
  S (2 ^ length (default ([] : Dict) (dicts σ !! positions (state (this σ))))).

(** [solve] *)
Definition solve : M (option loc) :=
  λ σ, solve_with (search_bound σ) σ.

End Solve.

(** ** What the functions compute, as functions of the values

    The definitions of this part are the reasoning companions of the program
    above: the same computations on dictionary and list values instead of
    objects of the store.  [dfs_refines] connects the two. *)

(** The verdict of [_is_valid_state] on a dictionary value; [None] when the
    dictionary has no ['Farmer']. *)
Definition unattended (d : Dict) (bank : Bank) : list string :=
  (filter (λ e, e.2 = bank ∧ e.1 ≠ "Farmer") d).*1.

Definition eaten (items : list string) : bool :=
  (In_list "Fox" items && In_list "Chicken" items)
  || (In_list "Chicken" items && In_list "Grain" items).

Definition valid_positions (d : Dict) : option bool :=
  match dict_get d "Farmer" with
  | Some farmer_bank =>
      Some (negb (eaten (unattended d (if decide (farmer_bank = LEFT) then RIGHT else LEFT))))
  | None => None
  end.

(** The dictionary after the farmer crossed to [bank] with [item]. *)
Definition cross (d : Dict) (item : string) (bank : Bank) : Dict :=
  dict_set (dict_set d "Farmer" bank) item bank.

Inductive res (A : Type) :=
  | Done (a : A)
  | Err (e : exn)
  | Timeout.
Arguments Done {A} a.
Arguments Err {A} e.
Arguments Timeout {A}.

Definition nonempty {A} (result : option (list A)) : bool :=
  match result with Some (_ :: _) => true | _ => false end.

Fixpoint search_items
    (rec : Dict → list Move → Visited → res (option (list Move) * Visited))
    (d : Dict) (h : list Move) (farmer_bank : Bank) (items : list string)
    (visited : Visited) : res (option (list Move) * Visited) :=
  match items with
  | [] => Done (None, visited)
  | item :: items =>
      let d' := cross d item (opposite farmer_bank) in
      let h' := h ++ [(item, opposite farmer_bank)] in
      match valid_positions d' with
      | None => Err (KeyError "Farmer")
      | Some true =>
          match rec d' h' visited with
          | Done (result, visited) =>
              if nonempty result then Done (result, visited)
              else search_items rec d h farmer_bank items visited
          | Err e => Err e
          | Timeout => Timeout
          end
      | Some false => search_items rec d h farmer_bank items visited
      end
  end.

Fixpoint search (fuel : nat) (d : Dict) (h : list Move) (visited : Visited)
    : res (option (list Move) * Visited) :=
  match fuel with
  | 0 => Timeout
  | S fuel =>
      if all_right d then Done (Some h, visited)
      else if decide (state_key d ∈ visited) then Done (None, visited)
      else
        let visited := visited ∪ {[state_key d]} in
        match dict_get d "Farmer" with
        | None => Err (KeyError "Farmer")
        | Some farmer_bank =>
            let d' := dict_set d "Farmer" (opposite farmer_bank) in
            let h' := h ++ [("Farmer", opposite farmer_bank)] in
            match valid_positions d' with
            | None => Err (KeyError "Farmer")
            | Some valid =>
                match (if valid then search fuel d' h' visited
                       else Done (None, visited)) with
                | Done (result, visited) =>
                    if nonempty result then Done (result, visited)
                    else search_items (search fuel) d h farmer_bank
                           (unattended d farmer_bank) visited
                | Err e => Err e
                | Timeout => Timeout
                end
            end
        end
  end.

(** A store extends another when the game object and every object of the
    first are unchanged in the second; only new objects were added. *)
Definition extends (σ σ' : Store) : Prop :=
  this σ' = this σ ∧ dicts σ `prefix_of` dicts σ' ∧ lists σ `prefix_of` lists σ'.

(** The search on objects computes what [search] computes on their values,
    and leaves a store that extends the one it started in. *)
Definition refines (σ : Store) (o : outcome (option loc * Visited))
    (r : res (option (list Move) * Visited)) : Prop :=
  match r with
  | Done (result, visited) =>
      ∃ ro σ', o = Ok (ro, visited) σ' ∧ extends σ σ' ∧
        match result with
        | Some l => ∃ r, ro = Some r ∧ lists σ' !! r = Some l
        | None => ro = None
        end
  | Err e => ∃ σ', o = Raised e σ' ∧ extends σ σ'
  | Timeout => o = Abort OutOfFuel
  end.

(** ** Replaying moves *)

(** A sequence of moves that leads from [d] to the goal: every move takes
    the farmer, and the item named, from the bank they are both on to the bank
    recorded in the move, and leaves a dictionary that [_is_valid_state]
    accepts. *)
Fixpoint path (d : Dict) (moves : list Move) : Prop :=
  match moves with
  | [] => all_right d = true
  | (item, bank) :: moves =>
      dict_get d "Farmer" = Some (opposite bank) ∧
      dict_get d item = Some (opposite bank) ∧
      valid_positions (cross d item bank) = Some true ∧
      path (cross d item bank) moves
  end.

(** What the player types for a move of the history: [none] when the farmer
    crossed alone. *)
Definition item_of (m : Move) : option string :=
  if decide (m.1 = "Farmer") then None else Some m.1.

(** Playing a sequence of moves the way the game loop does: [make_move], then
    [is_valid_state].  The result is [False] when a move is refused or leaves
    an invalid state. *)
Fixpoint replay (moves : list Move) : M bool :=
  match moves with
  | [] => ret true
  | m :: moves =>
      let* ok := make_move (item_of m) in
      if ok then
        let* valid := is_valid_state in
        if valid then replay moves else ret false
      else ret false
  end.

(** ** The configurations of a set of entities *)

(** Every dictionary with the keys [ks], in that order. *)
Fixpoint assignments (ks : list string) : list Dict :=
  match ks with
  | [] => [[]]
  | k :: ks => d ← assignments ks; [(k, LEFT) :: d; (k, RIGHT) :: d]
  end.

(** The keys the search can put in [visited] from a dictionary with keys [ks]. *)
Definition universe (ks : list string) : Visited :=
  list_to_set (state_key <$> assignments ks).

(** What [make_move] does with the dictionary [d]: the new dictionary and
    the history entry, or [None] when the move is refused. *)
Definition move (d : Dict) (item : option string) : res (option (Dict * Move)) :=
  match truthy_item item with
  | Some it =>
      if negb (dict_contains d it) then Done None
      else
        match dict_get d "Farmer" with
        | Some current_bank =>
            match dict_get d it with
            | Some b =>
                if bool_decide (b ≠ current_bank) then Done None
                else Done (Some (cross d it (opposite current_bank),
                                 (it, opposite current_bank)))
            | None => Err (KeyError it)
            end
        | None => Err (KeyError "Farmer")
        end
  | None =>
      match dict_get d "Farmer" with
      | Some current_bank =>
          Done (Some (dict_set d "Farmer" (opposite current_bank),
                      ("Farmer", opposite current_bank)))
      | None => Err (KeyError "Farmer")
      end
  end.

(** What [replay] returns from the dictionary [d]. *)
Fixpoint play (d : Dict) (moves : list Move) : res bool :=
  match moves with
  | [] => Done true
  | m :: moves =>
      match move d (item_of m) with
      | Done (Some (d', _)) =>
          match valid_positions d' with
          | Some true => play d' moves
          | Some false => Done false
          | None => Err (KeyError "Farmer")
          end
      | Done None => Done false
      | Err e => Err e
      | Timeout => Timeout
      end
  end.

(** The outcome the termination argument promises: a result, with a visited
    set that grew, and grew by configurations of the same entities only. *)
Definition finishes (ks : list string) (v : Visited)
    (r : res (option (list Move) * Visited)) : Prop :=
  ∃ result v', r = Done (result, v') ∧ v ⊆ v' ∧ v' ⊆ v ∪ universe ks.

(** ** Stores *)

(** The game of the store has the configuration [d] and the history [h]. *)
Definition live (σ : Store) (d : Dict) (h : list Move) : Prop :=
  dicts σ !! positions (state (this σ)) = Some d ∧
  lists σ !! history (state (this σ)) = Some h.

(** The next state of a branch of the search, a copy of the state, and the
    store with the copy once it was updated in place. *)
Definition branch_state (σ : Store) : GameState :=
  mkGameState (length (dicts σ)) (length (lists σ)).

Definition branch_store (σ : Store) (d : Dict) (h : list Move) : Store :=
  mkStore (this σ) (dicts σ ++ [d]) (lists σ ++ [h]).

(** The store after a move: the dictionary and the history of the game were
    updated in place and the move was counted. *)
Definition moved (σ : Store) (d' : Dict) (h' : list Move) : Store :=
  mkStore
    (mkGame (state (this σ)) (move_count (this σ) + 1) (_cached_solutions (this σ)))
    (<[positions (state (this σ)) := d']> (dicts σ))
    (<[history (state (this σ)) := h']> (lists σ)).

(** The store after [self._cached_solutions = c]. *)
Definition with_cache (σ : Store) (c : option (gset Move)) : Store :=
  mkStore (mkGame (state (this σ)) (move_count (this σ)) c) (dicts σ) (lists σ).

(** [if self._cached_solutions] is false: no set, or an empty one. *)
Definition no_cache (σ : Store) : Prop :=
  ∀ s, _cached_solutions (this σ) = Some s → s = ∅.

(** What [solve] returns and leaves behind when the search on the values of
    the game returns [r]. *)
Definition solved (σ : Store) (o : outcome (option loc))
    (r : res (option (list Move) * Visited)) : Prop :=
  match r with
  | Done (Some l, _) =>
      ∃ r σ1, extends σ σ1 ∧ lists σ1 !! r = Some l ∧
        o = Ok (Some r)
              (if bool_decide (l ≠ []) then with_cache σ1 (Some (list_to_set l)) else σ1)
  | Done (None, _) => ∃ σ1, extends σ σ1 ∧ o = Ok None σ1
  | Err e => ∃ σ1, extends σ σ1 ∧ o = Raised e σ1
  | Timeout => o = Abort OutOfFuel
  end.

(** A forbidden pair is on [bank]: the fox with the chicken, or the chicken
    with the grain. *)
Definition forbidden_pair_on (d : Dict) (bank : Bank) : Prop :=
  (("Fox", bank) ∈ d ∧ ("Chicken", bank) ∈ d) ∨
  (("Chicken", bank) ∈ d ∧ ("Grain", bank) ∈ d).

(** [item] is in the dictionary, on the bank of the farmer. *)
Definition with_farmer (d : Dict) (item : string) : Prop :=
  item ∈ d.*1 ∧ ∃ b, dict_get d item = Some b ∧ dict_get d "Farmer" = Some b.

(** ** Some stores *)

Definition empty_store : Store :=
  mkStore (mkGame (mkGameState 0 0) 0 None) [] [].

(** The store of a program that has just made its game. *)
Definition fresh : Store :=
  mkStore (mkGame (mkGameState 0 0) 0 None) [initial_positions] [[]].

(** The store after the farmer of [fresh] crossed alone: the fox and the
    chicken are on the bank he left. *)
Definition farmer_gone : Store :=
  moved fresh (dict_set initial_positions "Farmer" RIGHT) [("Farmer", RIGHT)].

(** The moves the search finds on a new game. *)
Definition classic_solution : list Move :=
  [("Chicken", RIGHT); ("Farmer", LEFT); ("Fox", RIGHT); ("Chicken", LEFT);
   ("Grain", RIGHT); ("Farmer", LEFT); ("Chicken", RIGHT)].

(** The store [__init__] leaves when it runs in [σ0]. *)
Definition new_game (σ0 : Store) : Store :=
  mkStore (mkGame (mkGameState (length (dicts σ0)) (length (lists σ0))) 0 None)
          (dicts σ0 ++ [initial_positions]) (lists σ0 ++ [[]]).

(** An order in which [list(s)] may go through a set: each element once. *)
Definition is_set_order (set_order : gset Move → list Move) : Prop :=
  ∀ s, set_order s ≡ₚ elements s.

(** The store a method leaves. *)
Definition after {A} (m : M A) (σ : Store) : Store :=
  match m σ with
  | Ok _ σ' => σ'
  | Raised _ σ' => σ'
  | Abort _ => σ
  end.

(** The claim that what [solve] returns can be played from the game it was
    asked about, through valid states only. *)
Definition replays_legally (set_order : gset Move → list Move) (σ : Store) : Prop :=
  ∀ r σ' l,
    solve set_order σ = Ok (Some r) σ' → lists σ' !! r = Some l →
    ∃ σ'', replay l σ' = Ok true σ''.

(** The claim that what [solve] returns begins with the history of the game. *)
Definition begins_with_history (set_order : gset Move → list Move) (σ : Store) : Prop :=
  ∀ r σ' l h,
    solve set_order σ = Ok (Some r) σ' → lists σ' !! r = Some l →
    lists σ !! history (state (this σ)) = Some h →
    h `prefix_of` l.

(** Everyone on the right bank. *)
Definition goal_positions : Dict :=
  [("Farmer", RIGHT); ("Fox", RIGHT); ("Chicken", RIGHT); ("Grain", RIGHT)].

(** The store of a player who made the seven moves without asking for a hint. *)
Definition won : Store := after (replay classic_solution) fresh.

(** The store after the chicken was taken across in a new game. *)
Definition chicken_across : Store := after (make_move (Some "Chicken")) fresh.

(** The bank the history says the farmer is on: where the last move went,
    the left bank when nothing was moved yet. *)
Definition farmer_side (h : list Move) : Bank :=
  match last h with
  | Some m => m.2
  | None => LEFT
  end.

(** What every game keeps from [__init__] on: the four entities, the farmer
    where the history says, and as many moves counted as recorded. *)
Definition consistent (σ : Store) : Prop :=
  ∃ d h,
    live σ d h ∧ d.*1 = initial_positions.*1 ∧
    dict_get d "Farmer" = Some (farmer_side h) ∧
    move_count (this σ) = length h.

(** The stores a program reaches that makes a game and then calls
    [make_move] and [solve] on it, in any order and with any arguments. *)
Inductive reachable : Store → Prop :=
  | reach_init σ0 : reachable (new_game σ0)
  | reach_move item σ : reachable σ → reachable (after (make_move item) σ)
  | reach_solve set_order σ : reachable σ → reachable (after (solve set_order) σ).
(** One legal move leads from [x] to [y]: the farmer, alone or with an item
    of his bank, crosses, and [_is_valid_state] accepts the result. *)
Definition step (x y : Dict) : Prop :=
  ∃ item bank,
    dict_get x "Farmer" = Some (opposite bank) ∧
    dict_get x item = Some (opposite bank) ∧
    valid_positions (cross x item bank) = Some true ∧
    y = cross x item bank.

(** The configurations added to the visited set [v] on the way to [v'] are
    explored: none is a goal and every legal move from one of them leads into
    [v']. *)
Definition explored (ks : list string) (v v' : Visited) : Prop :=
  ∀ x : Dict, x.*1 = ks → state_key x ∈ v' → state_key x ∉ v →
    all_right x = false ∧ ∀ y, step x y → state_key y ∈ v'.

(** What a call of the search that found nothing has done: it marked the
    configuration it was called on, which is not the goal, and explored what
    it added. *)
Definition exhausted (ks : list string) (d : Dict) (v v' : Visited) : Prop :=
  v ⊆ v' ∧ all_right d = false ∧ state_key d ∈ v' ∧ explored ks v v'.
(** ** The hint of the game loop *)

(** What the [hint] command of [play] comes to: no hint when [solve] found
    nothing, the move it names, or the [IndexError] of the subscript. *)
Inductive hint_result :=
  | NoHint
  | Suggest (next_move : Move)
  | IndexError.

(** The [elif command == 'hint'] branch of [play]:
    [solution = self.solve()], and when [solution] is true,
    [next_move = solution[len(self.state.history)]].  The [print] of the move
    is left out; the move is returned instead. *)
Definition hint (set_order : gset Move → list Move) : M hint_result :=
  let* solution := solve set_order in
  let* t := truthy solution in
  match solution with
  | Some r =>
      if t then
        let* l := read_list r in
        let* self := get_self in
        let* h := read_list (history (state self)) in
        match l !! length h with
        | Some next_move => ret (Suggest next_move)
        | None => ret IndexError
        end
      else ret NoHint
  | None => ret NoHint
  end.

(** The game can be won from the store [σ]: some sequence of moves is
    accepted move by move, through valid states, and ends won. *)
Definition winnable (σ : Store) : Prop :=
  ∃ ms σ', replay ms σ = Ok true σ' ∧ is_won σ' = Ok true σ'.
(** The store of a player who asked for a hint on the new game and then made
    the first five moves of the solution. *)
Definition five_moves_after_hint : Store :=
  after (replay (take 5 classic_solution)) (after (solve elements) fresh).

(** The list a call of the search returns is the history of the state it was
    called on, or a list made during the call. *)
Definition returns_own_list (σ : Store) (st : GameState)
    (o : outcome (option loc * Visited)) : Prop :=
  ∀ r v' σ', o = Ok (Some r, v') σ' → r = history st ∨ length (lists σ) ≤ r.

(** * Properties *)

(** ** Dictionaries *)

Lemma dict_get_set_eq (d : Dict) k v : dict_get (dict_set d k v) k = Some v.
Proof.
  induction d as [|[k' v'] d IH]; simpl.
  - by rewrite decide_True.
  - destruct (decide (k' = k)) as [->|Hne]; simpl.
    + by rewrite decide_True.
    + by rewrite decide_False.
Qed.

Lemma dict_get_set_ne (d : Dict) k k' v :
  k ≠ k' → dict_get (dict_set d k v) k' = dict_get d k'.
Proof.
  intros Hne. induction d as [|[k0 v0] d IH]; simpl.
  - by rewrite decide_False.
  - destruct (decide (k0 = k)) as [->|Hne0]; simpl.
    + by rewrite !decide_False.
    + by rewrite IH.
Qed.

Lemma dict_get_is_Some (d : Dict) k : is_Some (dict_get d k) ↔ k ∈ d.*1.
Proof.
  induction d as [|[k' v'] d IH]; simpl.
  - split; [by intros [? ?] | by intros ?%elem_of_nil].
  - destruct (decide (k' = k)) as [->|Hne].
    + split; [intros _; apply list_elem_of_here | by eauto].
    + rewrite IH. split; [apply list_elem_of_further | ].
      intros [?|?]%elem_of_cons; [congruence | done].
Qed.

Lemma dict_get_None (d : Dict) k : dict_get d k = None ↔ k ∉ d.*1.
Proof. rewrite <- dict_get_is_Some, eq_None_not_Some. done. Qed.

Lemma dict_get_elem (d : Dict) k v : dict_get d k = Some v → (k, v) ∈ d.
Proof.
  induction d as [|[k' v'] d IH]; simpl; [done|].
  destruct (decide (k' = k)) as [->|Hne].
  - intros [= ->]. apply list_elem_of_here.
  - intros H. apply list_elem_of_further. auto.
Qed.

Lemma elem_dict_get (d : Dict) k v :
  NoDup d.*1 → (k, v) ∈ d → dict_get d k = Some v.
Proof.
  induction d as [|[k' v'] d IH]; simpl.
  - by intros _ ?%elem_of_nil.
  - intros [Hk Hd]%NoDup_cons [[= <- <-]|Hin]%elem_of_cons.
    + by rewrite decide_True.
    + rewrite decide_False; [auto|].
      intros ->. apply Hk. apply list_elem_of_fmap. by exists (k, v).
Qed.

Lemma dict_set_keys (d : Dict) k v : k ∈ d.*1 → (dict_set d k v).*1 = d.*1.
Proof.
  induction d as [|[k' v'] d IH].
  - by intros ?%elem_of_nil.
  - cbn [dict_set]. destruct (decide (k' = k)) as [->|Hne]; [done|].
    rewrite !fmap_cons. intros [?|?]%elem_of_cons; [simpl in *; congruence|].
    by rewrite IH.
Qed.

Lemma cross_keys (d : Dict) item bank :
  "Farmer" ∈ d.*1 → item ∈ d.*1 → (cross d item bank).*1 = d.*1.
Proof.
  intros HF Hi. unfold cross.
  rewrite dict_set_keys; rewrite dict_set_keys; done.
Qed.

Lemma dict_set_twice (d : Dict) k v : dict_set (dict_set d k v) k v = dict_set d k v.
Proof.
  induction d as [|[k' v'] d IH]; simpl.
  - by rewrite decide_True.
  - destruct (decide (k' = k)) as [->|Hne]; simpl.
    + by rewrite decide_True.
    + by rewrite decide_False, IH.
Qed.

(** ** The monad and the store *)

Lemma bind_Ok {A B} (m : M A) (k : A → M B) σ a σ' :
  m σ = Ok a σ' → bind m k σ = k a σ'.
Proof. unfold bind. by intros ->. Qed.

Lemma bind_Raised {A B} (m : M A) (k : A → M B) σ e σ' :
  m σ = Raised e σ' → bind m k σ = Raised e σ'.
Proof. unfold bind. by intros ->. Qed.

Lemma bind_Abort {A B} (m : M A) (k : A → M B) σ w :
  m σ = Abort w → bind m k σ = Abort w.
Proof. unfold bind. by intros ->. Qed.

Lemma bind_bind_Ok {A B C} (m : M A) (f : A → M B) (k : B → M C) σ a σ' :
  m σ = Ok a σ' → bind (bind m f) k σ = bind (f a) k σ'.
Proof. unfold bind. by intros ->. Qed.

Lemma bind_bind_Raised {A B C} (m : M A) (f : A → M B) (k : B → M C) σ e σ' :
  m σ = Raised e σ' → bind (bind m f) k σ = Raised e σ'.
Proof. unfold bind. by intros ->. Qed.

Lemma bind_bind_Abort {A B C} (m : M A) (f : A → M B) (k : B → M C) σ w :
  m σ = Abort w → bind (bind m f) k σ = Abort w.
Proof. unfold bind. by intros ->. Qed.

Lemma read_dict_Ok r σ d : dicts σ !! r = Some d → read_dict r σ = Ok d σ.
Proof. unfold read_dict. by intros ->. Qed.

Lemma read_list_Ok r σ l : lists σ !! r = Some l → read_list r σ = Ok l σ.
Proof. unfold read_list. by intros ->. Qed.

Lemma getitem_Ok r σ d k v :
  dicts σ !! r = Some d → dict_get d k = Some v → getitem r k σ = Ok v σ.
Proof.
  intros Hr Hk. unfold getitem. rewrite (bind_Ok _ _ _ _ _ (read_dict_Ok _ _ _ Hr)).
  unfold subscript. by rewrite Hk.
Qed.

Lemma getitem_Raised r σ d k :
  dicts σ !! r = Some d → dict_get d k = None → getitem r k σ = Raised (KeyError k) σ.
Proof.
  intros Hr Hk. unfold getitem. rewrite (bind_Ok _ _ _ _ _ (read_dict_Ok _ _ _ Hr)).
  unfold subscript. by rewrite Hk.
Qed.

Lemma setitem_Ok r σ d k v :
  dicts σ !! r = Some d →
  setitem r k v σ = Ok tt (mkStore (this σ) (<[r := dict_set d k v]> (dicts σ)) (lists σ)).
Proof.
  intros Hr. unfold setitem. rewrite (bind_Ok _ _ _ _ _ (read_dict_Ok _ _ _ Hr)).
  unfold write_dict. by rewrite Hr.
Qed.

Lemma append_Ok r σ l x :
  lists σ !! r = Some l →
  append r x σ = Ok tt (mkStore (this σ) (dicts σ) (<[r := l ++ [x]]> (lists σ))).
Proof.
  intros Hr. unfold append. rewrite (bind_Ok _ _ _ _ _ (read_list_Ok _ _ _ Hr)).
  unfold write_list. by rewrite Hr.
Qed.

Lemma lookup_snoc {A} (l : list A) (x : A) : (l ++ [x]) !! length l = Some x.
Proof. rewrite lookup_app_r by lia. by rewrite Nat.sub_diag. Qed.

Lemma insert_snoc {A} (l : list A) (x y : A) : <[length l := y]> (l ++ [x]) = l ++ [y].
Proof. rewrite insert_app_r_alt by lia. by rewrite Nat.sub_diag. Qed.

Lemma copy_Ok st σ d h :
  dicts σ !! positions st = Some d → lists σ !! history st = Some h →
  copy st σ = Ok (mkGameState (length (dicts σ)) (length (lists σ)))
                 (mkStore (this σ) (dicts σ ++ [d]) (lists σ ++ [h])).
Proof.
  intros Hd Hh. unfold copy.
  rewrite (bind_Ok _ _ _ _ _ (read_dict_Ok _ _ _ Hd)).
  unfold alloc_dict at 1, bind at 1.
  erewrite bind_Ok by (apply read_list_Ok; exact Hh).
  done.
Qed.

(** The verdict of [_is_valid_state] is that of [valid_positions]; the store
    is only read. *)
Lemma _is_valid_state_eq r σ d :
  dicts σ !! r = Some d →
  _is_valid_state r σ =
    match valid_positions d with
    | Some b => Ok b σ
    | None => Raised (KeyError "Farmer") σ
    end.
Proof.
  intros Hr. unfold _is_valid_state, valid_positions.
  destruct (dict_get d "Farmer") as [fb|] eqn:HF.
  - rewrite (bind_Ok _ _ _ _ _ (getitem_Ok _ _ _ _ _ Hr HF)).
    rewrite (bind_Ok _ _ _ _ _ (read_dict_Ok _ _ _ Hr)).
    unfold eaten, unattended.
    destruct (In_list "Fox" _ && In_list "Chicken" _); [done|].
    destruct (In_list "Chicken" _ && In_list "Grain" _); done.
  - by rewrite (bind_Raised _ _ _ _ _ (getitem_Raised _ _ _ _ Hr HF)).
Qed.

(** ** Store extension *)

Lemma extends_refl σ : extends σ σ.
Proof. by repeat split. Qed.

Lemma extends_trans σ1 σ2 σ3 : extends σ1 σ2 → extends σ2 σ3 → extends σ1 σ3.
Proof.
  intros (? & ? & ?) (? & ? & ?). repeat split; [congruence | by etrans | by etrans].
Qed.

Lemma extends_dict σ σ' r d : extends σ σ' → dicts σ !! r = Some d → dicts σ' !! r = Some d.
Proof. intros (_ & H & _) Hl. by eapply prefix_lookup_Some. Qed.

Lemma extends_list σ σ' r l : extends σ σ' → lists σ !! r = Some l → lists σ' !! r = Some l.
Proof. intros (_ & _ & H) Hl. by eapply prefix_lookup_Some. Qed.

Lemma extends_alloc σ d l :
  extends σ (mkStore (this σ) (dicts σ ++ [d]) (lists σ ++ [l])).
Proof. repeat split; simpl; by apply prefix_app_r. Qed.

(** ** The search on objects refines the search on values *)

Lemma branch_alone {A} st σ d h b (k : GameState → M A) :
  dicts σ !! positions st = Some d → lists σ !! history st = Some h →
  (let* next_state := copy st in
   setitem (positions next_state) "Farmer" b ;;;
   append (history next_state) ("Farmer", b) ;;;
   k next_state) σ
  = k (branch_state σ) (branch_store σ (dict_set d "Farmer" b) (h ++ [("Farmer", b)])).
Proof.
  intros Hd Hh.
  rewrite (bind_Ok _ _ _ _ _ (copy_Ok _ _ _ _ Hd Hh)).
  erewrite bind_Ok by (apply setitem_Ok; simpl; apply lookup_snoc).
  erewrite bind_Ok by (apply append_Ok; simpl; apply lookup_snoc).
  simpl. by rewrite !insert_snoc.
Qed.

Lemma branch_item {A} st σ d h item b (k : GameState → M A) :
  dicts σ !! positions st = Some d → lists σ !! history st = Some h →
  (let* next_state := copy st in
   setitem (positions next_state) "Farmer" b ;;;
   setitem (positions next_state) item b ;;;
   append (history next_state) (item, b) ;;;
   k next_state) σ
  = k (branch_state σ) (branch_store σ (cross d item b) (h ++ [(item, b)])).
Proof.
  intros Hd Hh.
  rewrite (bind_Ok _ _ _ _ _ (copy_Ok _ _ _ _ Hd Hh)).
  erewrite bind_Ok by (apply setitem_Ok; simpl; apply lookup_snoc).
  erewrite bind_Ok
    by (apply setitem_Ok; simpl; rewrite insert_snoc; apply lookup_snoc).
  erewrite bind_Ok by (apply append_Ok; simpl; apply lookup_snoc).
  simpl. by rewrite !insert_snoc.
Qed.

Lemma branch_store_dict σ d h : dicts (branch_store σ d h) !! positions (branch_state σ) = Some d.
Proof. apply lookup_snoc. Qed.

Lemma branch_store_list σ d h : lists (branch_store σ d h) !! history (branch_state σ) = Some h.
Proof. apply lookup_snoc. Qed.

Lemma extends_branch σ d h : extends σ (branch_store σ d h).
Proof. apply extends_alloc. Qed.

Lemma refines_extends σ σ' o r : extends σ σ' → refines σ' o r → refines σ o r.
Proof.
  intros Hext. destruct r as [[result v]|e|]; simpl; [| |done].
  - intros (ro & σ2 & -> & Hext2 & Hres). exists ro, σ2.
    split; [done|]. split; [by eapply extends_trans|done].
  - intros (σ2 & -> & Hext2). exists σ2. split; [done|]. by eapply extends_trans.
Qed.

(** [if result] reads the list the result refers to. *)
Lemma truthy_refines σ ro (result : option (list Move)) :
  match result with
  | Some l => ∃ r, ro = Some r ∧ lists σ !! r = Some l
  | None => ro = None
  end →
  truthy ro σ = Ok (nonempty result) σ.
Proof.
  destruct result as [l|].
  - intros (r & -> & Hr). simpl.
    rewrite (bind_Ok _ _ _ _ _ (read_list_Ok _ _ _ Hr)).
    by destruct l.
  - by intros ->.
Qed.

Section Refinement.

Variable rec : GameState → Visited → M (option loc * Visited).
Variable prec : Dict → list Move → Visited → res (option (list Move) * Visited).

Hypothesis rec_refines : ∀ st v σ d h,
  dicts σ !! positions st = Some d → lists σ !! history st = Some h →
  refines σ (rec st v σ) (prec d h v).

(** One branch of the search: the validity test, the recursive call and
    the test of its result. *)
Lemma dfs_items_refines st d h fb items : ∀ v σ,
  dicts σ !! positions st = Some d → lists σ !! history st = Some h →
  refines σ (dfs_items rec st fb items v σ) (search_items prec d h fb items v).
Proof.
  induction items as [|item items IH]; intros v σ Hd Hh.
  - simpl. exists None, σ. split; [done|]. split; [apply extends_refl|done].
  - cbn [dfs_items search_items].
    rewrite (branch_item _ _ _ _ _ _ _ Hd Hh).
    set (σ1 := branch_store σ _ _).
    assert (Hext1 : extends σ σ1) by apply extends_branch.
    pose proof (_is_valid_state_eq _ σ1 _ (branch_store_dict σ _ _)) as Hv.
    fold σ1 in Hv.
    destruct (valid_positions (cross d item (opposite fb))) as [[|]|] eqn:Hvalid.
    + rewrite (bind_Ok _ _ _ _ _ Hv).
      pose proof (rec_refines (branch_state σ) v σ1 _ _
                    (branch_store_dict σ _ _) (branch_store_list σ _ _)) as Hrec.
      destruct (prec _ _ v) as [[result v']|e|]; simpl in Hrec.
      * destruct Hrec as (ro & σ2 & Hro & Hext2 & Hres).
        rewrite (bind_Ok _ _ _ _ _ Hro). cbn beta iota.
        rewrite (bind_Ok _ _ _ _ _ (truthy_refines _ _ _ Hres)).
        destruct (nonempty result).
        -- exists ro, σ2. split; [done|]. split; [by eapply extends_trans|done].
        -- apply refines_extends with σ2; [by eapply extends_trans|].
           apply IH.
           ++ eapply extends_dict; [|exact Hd]. by eapply extends_trans.
           ++ eapply extends_list; [|exact Hh]. by eapply extends_trans.
      * destruct Hrec as (σ2 & Hro & Hext2).
        rewrite (bind_Raised _ _ _ _ _ Hro).
        exists σ2. split; [done|]. by eapply extends_trans.
      * by rewrite (bind_Abort _ _ _ _ Hrec).
    + rewrite (bind_Ok _ _ _ _ _ Hv).
      apply refines_extends with σ1; [done|].
      apply IH.
      * by eapply extends_dict.
      * by eapply extends_list.
    + rewrite (bind_Raised _ _ _ _ _ Hv). by exists σ1.
Qed.

End Refinement.

Lemma dfs_refines fuel : ∀ st v σ d h,
  dicts σ !! positions st = Some d → lists σ !! history st = Some h →
  refines σ (dfs fuel st v σ) (search fuel d h v).
Proof.
  induction fuel as [|fuel IH]; intros st v σ d h Hd Hh; [done|].
  cbn [dfs search].
  rewrite (bind_Ok _ _ _ _ _ (read_dict_Ok _ _ _ Hd)).
  destruct (all_right d).
  { exists (Some (history st)), σ. split; [done|]. split; [apply extends_refl|eauto]. }
  destruct (decide (state_key d ∈ v)).
  { exists None, σ. split; [done|]. split; [apply extends_refl|done]. }
  destruct (dict_get d "Farmer") as [fb|] eqn:HF.
  2:{ rewrite (bind_Raised _ _ _ _ _ (getitem_Raised _ _ _ _ Hd HF)).
      exists σ. split; [done|apply extends_refl]. }
  rewrite (bind_Ok _ _ _ _ _ (getitem_Ok _ _ _ _ _ Hd HF)).
  rewrite (branch_alone _ _ _ _ _ _ Hd Hh).
  set (σ1 := branch_store σ _ _).
  assert (Hext1 : extends σ σ1) by apply extends_branch.
  pose proof (_is_valid_state_eq _ σ1 _ (branch_store_dict σ _ _)) as Hv.
  fold σ1 in Hv.
  destruct (valid_positions (dict_set d "Farmer" (opposite fb))) as [valid|] eqn:Hvalid.
  2:{ rewrite (bind_Raised _ _ _ _ _ Hv). by exists σ1. }
  rewrite (bind_Ok _ _ _ _ _ Hv).
  destruct valid.
  - pose proof (IH (branch_state σ) (v ∪ {[state_key d]}) σ1 _ _
                  (branch_store_dict σ _ _) (branch_store_list σ _ _)) as Hrec.
    destruct (search fuel _ _ _) as [[result v']|e|]; simpl in Hrec.
    + destruct Hrec as (ro & σ2 & Hro & Hext2 & Hres).
      rewrite (bind_bind_Ok _ _ _ _ _ _ Hro). cbn beta iota.
      rewrite (bind_bind_Ok _ _ _ _ _ _ (truthy_refines _ _ _ Hres)).
      unfold ret at 1, bind at 1. cbn beta iota.
      destruct (nonempty result) eqn:Hne.
      * destruct result as [l|]; [|done].
        destruct Hres as (r & -> & Hr).
        exists (Some r), σ2. split; [done|]. split; [by eapply extends_trans|eauto].
      * apply refines_extends with σ2; [by eapply extends_trans|].
        apply dfs_items_refines; [exact IH| |].
        -- eapply extends_dict; [|exact Hd]. by eapply extends_trans.
        -- eapply extends_list; [|exact Hh]. by eapply extends_trans.
    + destruct Hrec as (σ2 & Hro & Hext2).
      rewrite (bind_bind_Raised _ _ _ _ _ _ Hro).
      exists σ2. split; [done|]. by eapply extends_trans.
    + by rewrite (bind_bind_Abort _ _ _ _ _ Hrec).
  - unfold ret at 1, bind at 1. cbn beta iota.
    apply refines_extends with σ1; [done|].
    apply dfs_items_refines; [exact IH| |].
    + by eapply extends_dict.
    + by eapply extends_list.
Qed.

(** ** The search returns paths *)

Lemma opposite_involutive b : opposite (opposite b) = b.
Proof. by destruct b. Qed.

Lemma unattended_elem (d : Dict) bank item :
  item ∈ unattended d bank → (item, bank) ∈ d ∧ item ≠ "Farmer".
Proof.
  unfold unattended. intros ([k b] & -> & Hin)%list_elem_of_fmap.
  apply list_elem_of_filter in Hin as [[Hb Hk] Hin]. simpl in *. by subst.
Qed.

Lemma elem_keys (d : Dict) k v : (k, v) ∈ d → k ∈ d.*1.
Proof. intros H. apply list_elem_of_fmap. by exists (k, v). Qed.

Section SearchSound.

Variable prec : Dict → list Move → Visited → res (option (list Move) * Visited).

Hypothesis prec_sound : ∀ d h v l v',
  NoDup d.*1 → prec d h v = Done (Some l, v') → ∃ ms, l = h ++ ms ∧ path d ms.

Lemma search_items_sound d h fb items : ∀ v l v',
  NoDup d.*1 → dict_get d "Farmer" = Some fb →
  (∀ item, item ∈ items → item ∈ unattended d fb) →
  search_items prec d h fb items v = Done (Some l, v') →
  ∃ ms, l = h ++ ms ∧ path d ms.
Proof.
  intros v l v' Hnd HF. revert v.
  induction items as [|item items IH]; intros v Hitems; simpl; [done|].
  assert (Hitem : (item, fb) ∈ d ∧ item ≠ "Farmer").
  { apply unattended_elem, Hitems, list_elem_of_here. }
  destruct Hitem as [Hin HneF].
  assert (Hrest : ∀ i, i ∈ items → i ∈ unattended d fb).
  { intros i Hi. by apply Hitems, list_elem_of_further. }
  destruct (valid_positions _) as [[|]|] eqn:Hvalid; [| by apply IH | done].
  destruct (prec _ _ v) as [[result v1]|e|] eqn:Hprec; [|done|done].
  destruct (nonempty result); [|by apply IH].
  intros [= -> ->].
  apply prec_sound in Hprec as (ms & -> & Hpath).
  - exists ((item, opposite fb) :: ms). split; [by rewrite <- app_assoc|].
    simpl. rewrite opposite_involutive.
    split; [done|]. split; [by apply elem_dict_get|]. done.
  - rewrite cross_keys; [done| |by eapply elem_keys].
    apply dict_get_is_Some. eauto.
Qed.

End SearchSound.

Lemma search_sound fuel : ∀ d h v l v',
  NoDup d.*1 → search fuel d h v = Done (Some l, v') →
  ∃ ms, l = h ++ ms ∧ path d ms.
Proof.
  induction fuel as [|fuel IH]; intros d h v l v' Hnd; [done|].
  cbn [search].
  destruct (all_right d) eqn:Hgoal.
  { intros [= <- <-]. exists []. by rewrite app_nil_r. }
  destruct (decide (state_key d ∈ v)); [done|].
  destruct (dict_get d "Farmer") as [fb|] eqn:HF; [|done].
  destruct (valid_positions _) as [valid|] eqn:Hvalid; [|done].
  destruct (if valid then _ else _) as [[result v1]|e|] eqn:Hrec; [|done|done].
  destruct (nonempty result) eqn:Hne.
  - intros [= -> ->]. destruct valid; [|done].
    apply IH in Hrec as (ms & -> & Hpath).
    + exists (("Farmer", opposite fb) :: ms). split; [by rewrite <- app_assoc|].
      simpl. rewrite opposite_involutive. unfold cross. rewrite dict_set_twice.
      done.
    + rewrite dict_set_keys; [done|]. apply dict_get_is_Some. eauto.
  - intros Hitems. eapply search_items_sound; [exact IH|done|exact HF| |exact Hitems].
    done.
Qed.

(** ** The search terminates *)

Lemma length_bind_pairs {A B} (f : A → list B) (l : list A) :
  (∀ x, length (f x) = 2) → length (l ≫= f) = 2 * length l.
Proof.
  intros Hf. induction l as [|x l IH]; [done|].
  rewrite bind_cons, length_app, IH, Hf. simpl. lia.
Qed.

Lemma length_assignments ks : length (assignments ks) = 2 ^ length ks.
Proof.
  induction ks as [|k ks IH]; [done|].
  change (assignments (k :: ks))
    with (assignments ks ≫= λ d, [(k, LEFT) :: d; (k, RIGHT) :: d]).
  rewrite length_bind_pairs by done.
  cbn [length]. rewrite Nat.pow_succ_r'. f_equal. exact IH.
Qed.

Lemma assignments_elem (d : Dict) : d ∈ assignments d.*1.
Proof.
  induction d as [|[k v] d IH]; [apply list_elem_of_here|].
  rewrite fmap_cons. cbn [fst].
  change (assignments (k :: d.*1))
    with (assignments d.*1 ≫= λ d, [(k, LEFT) :: d; (k, RIGHT) :: d]).
  apply list_elem_of_bind. exists d. split; [|done].
  destruct v; [apply list_elem_of_here|apply list_elem_of_further, list_elem_of_here].
Qed.

Lemma size_list_to_set_le (l : list Key) : size (list_to_set l : Visited) ≤ length l.
Proof.
  induction l as [|x l IH].
  - rewrite list_to_set_nil, size_empty. done.
  - rewrite list_to_set_cons, size_union_alt, size_singleton.
    pose proof (subseteq_size (list_to_set l ∖ {[x]}) (list_to_set l : Visited)) as Hle.
    specialize (Hle ltac:(set_solver)). cbn [length]. lia.
Qed.

Lemma size_universe ks : size (universe ks) ≤ 2 ^ length ks.
Proof.
  unfold universe. etrans; [apply size_list_to_set_le|].
  by rewrite length_fmap, length_assignments.
Qed.

Lemma state_key_universe (d : Dict) : state_key d ∈ universe d.*1.
Proof.
  unfold universe. apply elem_of_list_to_set, list_elem_of_fmap.
  exists d. split; [done|apply assignments_elem].
Qed.

(** Marking a configuration that was not visited leaves fewer to visit. *)
Lemma unvisited_decreases (U v : Visited) (k : Key) :
  k ∈ U → k ∉ v → size (U ∖ (v ∪ {[k]})) < size (U ∖ v).
Proof.
  intros HU Hv. apply subset_size. split; [set_solver|].
  intros Hsub. assert (k ∈ U ∖ (v ∪ {[k]})) by set_solver. set_solver.
Qed.

Lemma unvisited_mono (U v v' : Visited) : v ⊆ v' → size (U ∖ v') ≤ size (U ∖ v).
Proof. intros Hsub. apply subseteq_size. set_solver. Qed.

Lemma valid_positions_is_Some (d : Dict) : "Farmer" ∈ d.*1 → is_Some (valid_positions d).
Proof.
  intros [fb HF]%dict_get_is_Some. unfold valid_positions. rewrite HF. eauto.
Qed.

Section SearchTotal.

Variable prec : Dict → list Move → Visited → res (option (list Move) * Visited).
Variable ks : list string.
Variable bound : nat.

Hypothesis prec_total : ∀ d h v,
  d.*1 = ks → size (universe ks ∖ v) < bound → finishes ks v (prec d h v).

Lemma search_items_total d h fb items : ∀ v,
  d.*1 = ks → "Farmer" ∈ ks → (∀ item, item ∈ items → item ∈ ks) →
  size (universe ks ∖ v) < bound →
  finishes ks v (search_items prec d h fb items v).
Proof.
  intros v Hks HF. revert v.
  induction items as [|item items IH]; intros v Hitems Hsize; simpl.
  { exists None, v. split; [done|]. set_solver. }
  assert (Hrest : ∀ i, i ∈ items → i ∈ ks).
  { intros i Hi. by apply Hitems, list_elem_of_further. }
  assert (Hkeys : (cross d item (opposite fb)).*1 = ks).
  { rewrite cross_keys; rewrite Hks; [done|done|]. apply Hitems, list_elem_of_here. }
  destruct (valid_positions_is_Some (cross d item (opposite fb))) as [valid ->].
  { by rewrite Hkeys. }
  destruct valid; [|by apply IH].
  destruct (prec_total (cross d item (opposite fb)) (h ++ [(item, opposite fb)]) v
              Hkeys Hsize) as (result & v1 & -> & Hsub & Hsup).
  destruct (nonempty result).
  - by exists result, v1.
  - destruct (IH v1 Hrest) as (result' & v2 & -> & Hsub2 & Hsup2).
    { pose proof (unvisited_mono (universe ks) v v1 Hsub). lia. }
    exists result', v2. split; [done|]. set_solver.
Qed.

End SearchTotal.

(** Within the bound the search finishes, and a configuration that is
    neither the goal nor visited already is in the visited set afterwards. *)
Lemma search_total_marks fuel : ∀ d h v,
  "Farmer" ∈ d.*1 → size (universe d.*1 ∖ v) < fuel →
  ∃ result v',
    search fuel d h v = Done (result, v') ∧ v ⊆ v' ∧ v' ⊆ v ∪ universe d.*1 ∧
    (all_right d = false → state_key d ∈ v').
Proof.
  induction fuel as [|fuel IH]; intros d h v HF Hsize; [lia|].
  cbn [search].
  destruct (all_right d).
  { exists (Some h), v. split; [done|]. set_solver. }
  destruct (decide (state_key d ∈ v)) as [|Hnew].
  { exists None, v. split; [done|]. set_solver. }
  destruct (proj2 (dict_get_is_Some d "Farmer") HF) as [fb HFb]. rewrite HFb.
  pose proof (state_key_universe d) as HU.
  pose proof (unvisited_decreases _ _ _ HU Hnew) as Hdec.
  assert (Hkeys : (dict_set d "Farmer" (opposite fb)).*1 = d.*1)
    by by apply dict_set_keys.
  destruct (valid_positions_is_Some (dict_set d "Farmer" (opposite fb))) as [valid ->].
  { by rewrite Hkeys. }
  assert (Hrec : ∀ d' h' v', d'.*1 = d.*1 → size (universe d.*1 ∖ v') < fuel →
                 finishes d.*1 v' (search fuel d' h' v')).
  { intros d' h' v' Hk' Hs'. rewrite <- Hk'.
    destruct (IH d' h' v') as (result & v1 & ? & ? & ? & _); [by rewrite Hk'..|].
    by exists result, v1. }
  assert (Hfirst : finishes d.*1 (v ∪ {[state_key d]})
            (if valid then search fuel (dict_set d "Farmer" (opposite fb))
                             (h ++ [("Farmer", opposite fb)]) (v ∪ {[state_key d]})
             else Done (None, v ∪ {[state_key d]}))).
  { destruct valid.
    - apply Hrec; [done|lia].
    - exists None, (v ∪ {[state_key d]}). split; [done|]. set_solver. }
  destruct Hfirst as (result & v1 & -> & Hsub & Hsup).
  destruct (nonempty result).
  { exists result, v1. split; [done|]. set_solver. }
  destruct (search_items_total (search fuel) d.*1 fuel Hrec d h fb
              (unattended d fb) v1) as (result' & v2 & -> & Hsub2 & Hsup2).
  - done.
  - done.
  - intros item [Hin _]%unattended_elem. by eapply elem_keys.
  - pose proof (unvisited_mono (universe d.*1) _ v1 Hsub). lia.
  - exists result', v2. split; [done|]. set_solver.
Qed.

Lemma search_total fuel d h v :
  "Farmer" ∈ d.*1 → size (universe d.*1 ∖ v) < fuel →
  finishes d.*1 v (search fuel d h v).
Proof.
  intros HF Hsize.
  destruct (search_total_marks fuel d h v HF Hsize) as (result & v' & ? & ? & ? & _).
  by exists result, v'.
Qed.

(** ** More fuel does not change what the search returns *)

Section SearchFuel.

Variable prec prec' : Dict → list Move → Visited → res (option (list Move) * Visited).

Hypothesis prec_stable : ∀ d h v, prec d h v ≠ Timeout → prec' d h v = prec d h v.

Lemma search_items_stable d h fb items : ∀ v,
  search_items prec d h fb items v ≠ Timeout →
  search_items prec' d h fb items v = search_items prec d h fb items v.
Proof.
  induction items as [|item items IH]; intros v; simpl; [done|].
  destruct (valid_positions _) as [[|]|]; [|by apply IH|done].
  destruct (prec _ _ v) as [[result v1]|e|] eqn:Hprec; [| |done].
  - rewrite prec_stable, Hprec by (by rewrite Hprec).
    destruct (nonempty result); [done|by apply IH].
  - by rewrite prec_stable, Hprec by (by rewrite Hprec).
Qed.

End SearchFuel.

Lemma search_fuel_S fuel : ∀ d h v,
  search fuel d h v ≠ Timeout → search (S fuel) d h v = search fuel d h v.
Proof.
  induction fuel as [|fuel IH]; intros d h v; [done|].
  remember (S fuel) as n eqn:Hn. rewrite Hn at 1 3. cbn [search]. subst n.
  destruct (all_right d); [done|].
  destruct (decide (state_key d ∈ v)); [done|].
  destruct (dict_get d "Farmer") as [fb|]; [|done].
  destruct (valid_positions _) as [valid|]; [|done].
  destruct valid.
  - destruct (search fuel _ _ _) as [[result v1]|e|] eqn:Hrec; [| |done].
    + rewrite IH, Hrec by (by rewrite Hrec).
      destruct (nonempty result); [done|]. by apply search_items_stable.
    + by rewrite IH, Hrec by (by rewrite Hrec).
  - cbn [nonempty]. by apply search_items_stable.
Qed.

Lemma search_fuel_mono fuel k d h v :
  search fuel d h v ≠ Timeout → search (fuel + k) d h v = search fuel d h v.
Proof.
  intros Hdone. induction k as [|k IH]; [by rewrite Nat.add_0_r|].
  rewrite Nat.add_succ_r, search_fuel_S; [done|]. by rewrite IH.
Qed.

(** ** Moves *)

Lemma live_moved σ d h d' h' : live σ d h → live (moved σ d' h') d' h'.
Proof.
  intros [Hd Hh]. split; simpl.
  - apply list_lookup_insert_eq. by eapply lookup_lt_Some.
  - apply list_lookup_insert_eq. by eapply lookup_lt_Some.
Qed.

(** The farmer crosses alone. *)
Lemma make_move_alone σ d h item fb :
  live σ d h → truthy_item item = None → dict_get d "Farmer" = Some fb →
  make_move item σ
  = Ok true (moved σ (dict_set d "Farmer" (opposite fb)) (h ++ [("Farmer", opposite fb)])).
Proof.
  intros [Hd Hh] Hitem HF. unfold make_move. rewrite Hitem.
  unfold get_self at 1, bind at 1.
  rewrite (bind_Ok _ _ _ _ _ (read_dict_Ok _ _ _ Hd)).
  rewrite (bind_Ok _ _ _ _ _ (getitem_Ok _ _ _ _ _ Hd HF)).
  unfold ret at 1, bind at 1.
  rewrite (bind_Ok _ _ _ _ _ (setitem_Ok _ _ _ _ _ Hd)).
  erewrite bind_Ok by (apply append_Ok; exact Hh).
  done.
Qed.

(** The farmer crosses with an item that is on his bank. *)
Lemma make_move_with σ d h item fb :
  live σ d h → item ≠ "" →
  dict_get d "Farmer" = Some fb → dict_get d item = Some fb →
  make_move (Some item) σ
  = Ok true (moved σ (cross d item (opposite fb)) (h ++ [(item, opposite fb)])).
Proof.
  intros [Hd Hh] Hitem HF Hi. unfold make_move. simpl truthy_item.
  rewrite decide_False by done.
  unfold get_self at 1, bind at 1.
  rewrite (bind_Ok _ _ _ _ _ (read_dict_Ok _ _ _ Hd)).
  unfold dict_contains. rewrite bool_decide_eq_true_2
    by (apply dict_get_is_Some; eauto).
  cbn [negb].
  rewrite (bind_Ok _ _ _ _ _ (getitem_Ok _ _ _ _ _ Hd HF)).
  rewrite (bind_bind_Ok _ _ _ _ _ _ (getitem_Ok _ _ _ _ _ Hd Hi)).
  unfold ret at 1, bind at 1.
  rewrite bool_decide_eq_false_2 by (intros ?; done).
  rewrite (bind_Ok _ _ _ _ _ (setitem_Ok _ _ _ _ _ Hd)).
  assert (Hlt : positions (state (this σ)) < length (dicts σ))
    by by eapply lookup_lt_Some.
  erewrite bind_bind_Ok
    by (apply setitem_Ok; simpl; apply list_lookup_insert_eq; exact Hlt).
  erewrite bind_Ok by (apply append_Ok; exact Hh).
  simpl. unfold get_self, set_self, bind, ret. simpl.
  by rewrite list_insert_insert_eq.
Qed.

(** An item that is not in the dictionary is refused; nothing changes. *)
Lemma make_move_unknown σ d h item :
  live σ d h → item ≠ "" → item ∉ d.*1 → make_move (Some item) σ = Ok false σ.
Proof.
  intros [Hd Hh] Hitem Hin. unfold make_move. simpl truthy_item.
  rewrite decide_False by done.
  unfold get_self at 1, bind at 1.
  rewrite (bind_Ok _ _ _ _ _ (read_dict_Ok _ _ _ Hd)).
  unfold dict_contains. by rewrite bool_decide_eq_false_2.
Qed.

(** An item on the other bank is refused; nothing changes. *)
Lemma make_move_elsewhere σ d h item fb b :
  live σ d h → item ≠ "" →
  dict_get d "Farmer" = Some fb → dict_get d item = Some b → b ≠ fb →
  make_move (Some item) σ = Ok false σ.
Proof.
  intros [Hd Hh] Hitem HF Hi Hb. unfold make_move. simpl truthy_item.
  rewrite decide_False by done.
  unfold get_self at 1, bind at 1.
  rewrite (bind_Ok _ _ _ _ _ (read_dict_Ok _ _ _ Hd)).
  unfold dict_contains. rewrite bool_decide_eq_true_2
    by (apply dict_get_is_Some; eauto).
  cbn [negb].
  rewrite (bind_Ok _ _ _ _ _ (getitem_Ok _ _ _ _ _ Hd HF)).
  rewrite (bind_bind_Ok _ _ _ _ _ _ (getitem_Ok _ _ _ _ _ Hd Hi)).
  unfold ret at 1, bind at 1.
  by rewrite bool_decide_eq_true_2.
Qed.

(** Without a farmer in the dictionary a known item raises [KeyError];
    nothing changes. *)
Lemma make_move_no_farmer σ d h item :
  live σ d h → (∀ it, truthy_item item = Some it → it ∈ d.*1) →
  dict_get d "Farmer" = None →
  make_move item σ = Raised (KeyError "Farmer") σ.
Proof.
  intros [Hd Hh] Hitem HF. unfold make_move.
  unfold get_self at 1, bind at 1.
  rewrite (bind_Ok _ _ _ _ _ (read_dict_Ok _ _ _ Hd)).
  destruct (truthy_item item) as [it|].
  - unfold dict_contains. rewrite bool_decide_eq_true_2 by auto.
    cbn [negb].
    by rewrite (bind_Raised _ _ _ _ _ (getitem_Raised _ _ _ _ Hd HF)).
  - by rewrite (bind_Raised _ _ _ _ _ (getitem_Raised _ _ _ _ Hd HF)).
Qed.

(** ** The two validity tests *)

Lemma items_at_elem (d : Dict) bank x : x ∈ items_at d bank ↔ (x, bank) ∈ d.
Proof.
  unfold items_at. rewrite list_elem_of_fmap. split.
  - intros ([k b] & -> & [Hb Hin]%list_elem_of_filter). simpl in *. by subst.
  - intros Hin. exists (x, bank). split; [done|]. by apply list_elem_of_filter.
Qed.

Lemma unattended_elem_iff (d : Dict) bank x :
  x ∈ unattended d bank ↔ (x, bank) ∈ d ∧ x ≠ "Farmer".
Proof.
  split; [apply unattended_elem|].
  intros [Hin Hne]. unfold unattended. apply list_elem_of_fmap.
  exists (x, bank). split; [done|]. by apply list_elem_of_filter.
Qed.

(** Leaving the farmer out of the list does not change whether another name
    is in it. *)
Lemma In_list_unattended (d : Dict) bank x :
  x ≠ "Farmer" → In_list x (unattended d bank) = In_list x (items_at d bank).
Proof.
  intros Hne. unfold In_list. apply bool_decide_ext.
  rewrite unattended_elem_iff, items_at_elem. naive_solver.
Qed.

Lemma is_valid_state_eq σ d :
  dicts σ !! positions (state (this σ)) = Some d →
  is_valid_state σ =
    match valid_positions d with
    | Some b => Ok b σ
    | None => Raised (KeyError "Farmer") σ
    end.
Proof.
  intros Hd. unfold is_valid_state, valid_positions.
  unfold get_self at 1, bind at 1.
  destruct (dict_get d "Farmer") as [fb|] eqn:HF.
  - rewrite (bind_Ok _ _ _ _ _ (getitem_Ok _ _ _ _ _ Hd HF)).
    unfold get_items_at_bank, get_self. unfold bind at 2. unfold bind at 1.
    rewrite (bind_Ok _ _ _ _ _ (read_dict_Ok _ _ _ Hd)).
    unfold ret at 1. cbn beta iota.
    unfold eaten, opposite.
    rewrite !In_list_unattended by done.
    destruct (In_list "Fox" _ && In_list "Chicken" _); [done|].
    destruct (In_list "Chicken" _ && In_list "Grain" _); done.
  - by rewrite (bind_Raised _ _ _ _ _ (getitem_Raised _ _ _ _ Hd HF)).
Qed.

(** [make_move] does to the game what [move] does to its dictionary. *)
Lemma make_move_move σ d h item :
  live σ d h →
  match move d item with
  | Done (Some (d', m)) => make_move item σ = Ok true (moved σ d' (h ++ [m]))
  | Done None => make_move item σ = Ok false σ
  | Err e => make_move item σ = Raised e σ
  | Timeout => False
  end.
Proof.
  intros Hlive. unfold move.
  destruct (truthy_item item) as [it|] eqn:Hitem.
  - assert (item = Some it ∧ it ≠ "") as [-> Hne].
    { destruct item as [s|]; simpl in Hitem; [|done].
      destruct (decide (s = "")); [done|]. by injection Hitem as ->. }
    unfold dict_contains. case_bool_decide as Hin; cbn [negb].
    + destruct (dict_get d "Farmer") as [fb|] eqn:HF.
      * destruct (proj2 (dict_get_is_Some d it) Hin) as [b Hb]. rewrite Hb.
        case_bool_decide as Hbank.
        -- by apply (make_move_elsewhere σ d h it fb b).
        -- subst b. by apply make_move_with.
      * apply (make_move_no_farmer σ d h); [done| |done].
        rewrite Hitem. by intros ? [= <-].
    + by apply (make_move_unknown σ d h).
  - destruct (dict_get d "Farmer") as [fb|] eqn:HF.
    + by apply make_move_alone.
    + apply (make_move_no_farmer σ d h); [done| |done]. by rewrite Hitem.
Qed.

(** [replay] returns what [play] returns on the dictionary of the game. *)
Lemma replay_play ms : ∀ σ d h,
  live σ d h →
  match play d ms with
  | Done b => ∃ σ', replay ms σ = Ok b σ'
  | Err e => ∃ σ', replay ms σ = Raised e σ'
  | Timeout => False
  end.
Proof.
  induction ms as [|m ms IH]; intros σ d h Hlive; cbn [play replay].
  { by exists σ. }
  pose proof (make_move_move σ d h (item_of m) Hlive) as Hmove.
  destruct (move d (item_of m)) as [[[d' m']|]|e|]; [| | |done].
  - rewrite (bind_Ok _ _ _ _ _ Hmove).
    pose proof (live_moved σ d h d' (h ++ [m']) Hlive) as Hlive'.
    pose proof (is_valid_state_eq _ _ (proj1 Hlive')) as Hvalid.
    destruct (valid_positions d') as [[|]|].
    + rewrite (bind_Ok _ _ _ _ _ Hvalid). by apply (IH _ d' (h ++ [m'])).
    + rewrite (bind_Ok _ _ _ _ _ Hvalid). by eexists.
    + rewrite (bind_Raised _ _ _ _ _ Hvalid). by eexists.
  - rewrite (bind_Ok _ _ _ _ _ Hmove). by eexists.
  - rewrite (bind_Raised _ _ _ _ _ Hmove). by eexists.
Qed.

(** ** Replaying a path *)

Lemma path_replay ms : ∀ σ d h,
  live σ d h → NoDup d.*1 → "" ∉ d.*1 → path d ms →
  ∃ σ' d',
    replay ms σ = Ok true σ' ∧ live σ' d' (h ++ ms) ∧ all_right d' = true ∧
    this σ' = mkGame (state (this σ)) (move_count (this σ) + length ms)
                     (_cached_solutions (this σ)).
Proof.
  induction ms as [|[item b] ms IH]; intros σ d h Hlive Hnd Hempty Hpath.
  - exists σ, d. simpl in *. rewrite app_nil_r, Nat.add_0_r.
    split; [done|]. split; [done|]. split; [done|]. by destruct (this σ).
  - destruct Hpath as (HF & Hi & Hvalid & Hpath).
    assert (Hkeys : (cross d item b).*1 = d.*1).
    { apply cross_keys; apply dict_get_is_Some; eauto. }
    assert (Hmove : make_move (item_of (item, b)) σ
                    = Ok true (moved σ (cross d item b) (h ++ [(item, b)]))).
    { unfold item_of. cbn [fst]. destruct (decide (item = "Farmer")) as [->|Hne].
      - rewrite (make_move_alone σ d h None (opposite b) Hlive eq_refl HF).
        unfold cross. by rewrite opposite_involutive, dict_set_twice.
      - rewrite (make_move_with σ d h item (opposite b) Hlive) ; [ | | done | done].
        + by rewrite opposite_involutive.
        + intros ->. apply Hempty. apply dict_get_is_Some. eauto. }
    pose proof (live_moved σ d h (cross d item b) (h ++ [(item, b)]) Hlive) as Hlive'.
    destruct (IH _ _ _ Hlive') as (σ' & d' & Hrep & Hl & Hwon & Hthis);
      [by rewrite Hkeys|by rewrite Hkeys|done|].
    exists σ', d'. cbn [replay].
    rewrite (bind_Ok _ _ _ _ _ Hmove).
    erewrite bind_Ok; [|rewrite (is_valid_state_eq _ _ (proj1 Hlive')), Hvalid; done].
    split; [done|]. rewrite <- app_assoc in Hl. split; [done|]. split; [done|].
    rewrite Hthis. simpl. f_equal. lia.
Qed.

(** With more fuel [dfs] still computes what the search on values computed
    with less. *)
Lemma dfs_more_fuel fuel k st v σ d h :
  dicts σ !! positions st = Some d → lists σ !! history st = Some h →
  search fuel d h v ≠ Timeout →
  refines σ (dfs (fuel + k) st v σ) (search fuel d h v).
Proof.
  intros Hd Hh Hdone. rewrite <- (search_fuel_mono fuel k d h v Hdone).
  by apply dfs_refines.
Qed.

(** ** [solve] *)

Lemma solve_search_solved fuel σ d h :
  live σ d h → solved σ (solve_search fuel σ) (search fuel d h ∅).
Proof.
  intros [Hd Hh]. unfold solve_search.
  unfold get_self at 1, bind at 1.
  pose proof (dfs_refines fuel (state (this σ)) ∅ σ d h Hd Hh) as Href.
  destruct (search fuel d h ∅) as [[result v]|e|]; simpl in *.
  - destruct Href as (ro & σ1 & Hro & Hext & Hres).
    rewrite (bind_Ok _ _ _ _ _ Hro). cbn beta iota.
    rewrite (bind_Ok _ _ _ _ _ (truthy_refines _ _ _ Hres)).
    destruct result as [l|].
    + destruct Hres as (r & -> & Hr). exists r, σ1.
      split; [done|]. split; [done|].
      destruct l as [|m l]; simpl; [done|].
      unfold bind at 1.
      by rewrite (bind_Ok _ _ _ _ _ (read_list_Ok _ _ _ Hr)).
    + subst ro. by exists σ1.
  - destruct Href as (σ1 & Hro & Hext).
    rewrite (bind_Raised _ _ _ _ _ Hro). by exists σ1.
  - by rewrite (bind_Abort _ _ _ _ Href).
Qed.

Lemma solve_no_cache set_order σ :
  no_cache σ → solve set_order σ = solve_search (search_bound σ) σ.
Proof.
  intros Hc. unfold solve, solve_with, get_self. unfold bind at 1.
  destruct (_cached_solutions (this σ)) as [s|] eqn:Hs; [|done].
  rewrite (Hc s Hs). by rewrite bool_decide_eq_false_2 by (intros H; by apply H).
Qed.

Lemma search_bound_live σ d h : live σ d h → search_bound σ = S (2 ^ length d).
Proof. intros [Hd _]. unfold search_bound. by rewrite Hd. Qed.

(** With the bound of [solve] the search on values finishes. *)
Lemma search_finishes (d : Dict) h :
  "Farmer" ∈ d.*1 → finishes d.*1 ∅ (search (S (2 ^ length d)) d h ∅).
Proof.
  intros HF. apply search_total; [done|].
  pose proof (size_universe d.*1) as Hsize. rewrite length_fmap in Hsize.
  pose proof (subseteq_size (universe d.*1 ∖ ∅) (universe d.*1)) as Hle.
  specialize (Hle ltac:(set_solver)). lia.
Qed.

Lemma extends_live σ σ' d h : extends σ σ' → live σ d h → live σ' d h.
Proof.
  intros Hext [Hd Hh]. destruct Hext as (Hthis & Hds & Hls).
  unfold live. rewrite Hthis. split; by eapply prefix_lookup_Some.
Qed.

Lemma live_with_cache σ c d h : live σ d h → live (with_cache σ c) d h.
Proof. done. Qed.

(** * The claims *)

Lemma init_fresh : __init__ empty_store = Ok tt fresh.
Proof. reflexivity. Qed.

Lemma live_fresh : live fresh initial_positions [].
Proof. done. Qed.

Lemma initial_keys : initial_positions.*1 = ["Farmer"; "Fox"; "Chicken"; "Grain"].
Proof. reflexivity. Qed.

Lemma initial_has_farmer : "Farmer" ∈ initial_positions.*1.
Proof. rewrite initial_keys. set_solver. Qed.

Lemma initial_NoDup : NoDup initial_positions.*1.
Proof. rewrite initial_keys. apply (bool_decide_unpack _). by vm_compute. Qed.

Lemma initial_no_empty_name : "" ∉ initial_positions.*1.
Proof. rewrite initial_keys. apply (bool_decide_unpack _). by vm_compute. Qed.

(** C6: the legality predicate of live play, [is_valid_state], and the one
    that prunes the search, [_is_valid_state], agree: on every positions
    mapping that contains the farmer both return the same boolean (and leave
    the store as it is). *)
Theorem validity_tests_agree σ d :
  dicts σ !! positions (state (this σ)) = Some d → "Farmer" ∈ d.*1 →
  ∃ b, is_valid_state σ = Ok b σ ∧
       _is_valid_state (positions (state (this σ))) σ = Ok b σ.
Proof.
  intros Hd HF.
  rewrite (is_valid_state_eq σ d Hd), (_is_valid_state_eq _ σ d Hd).
  destruct (valid_positions_is_Some d HF) as [b ->]. by exists b.
Qed.

Lemma validity_tests_agree_witness :
  dicts fresh !! positions (state (this fresh)) = Some initial_positions ∧
  "Farmer" ∈ initial_positions.*1 ∧
  ∃ b, is_valid_state fresh = Ok b fresh ∧
       _is_valid_state (positions (state (this fresh))) fresh = Ok b fresh.
Proof.
  split; [reflexivity|]. split; [exact initial_has_farmer|].
  apply (validity_tests_agree fresh initial_positions); [reflexivity|exact initial_has_farmer].
Defined.

Lemma elem_dict_set_ne (d : Dict) k v k' v' :
  k' ≠ k → (k', v') ∈ dict_set d k v ↔ (k', v') ∈ d.
Proof.
  intros Hne. induction d as [|[k0 v0] d IH]; cbn [dict_set].
  - rewrite list_elem_of_singleton. split; [intros [= ? ?]; done|by intros ?%elem_of_nil].
  - destruct (decide (k0 = k)) as [->|Hne0].
    + rewrite !elem_of_cons. split; (intros [[= ? ?]|?]; [done|by right]).
    + rewrite !elem_of_cons, IH. done.
Qed.

Lemma eaten_iff (d : Dict) bank :
  eaten (unattended d bank) = true ↔ forbidden_pair_on d bank.
Proof.
  unfold eaten, forbidden_pair_on, In_list.
  rewrite orb_true_iff, !andb_true_iff, !bool_decide_eq_true, !unattended_elem_iff.
  naive_solver.
Qed.

Lemma valid_positions_farmer (d : Dict) fb :
  dict_get d "Farmer" = Some fb →
  valid_positions d = Some (negb (eaten (unattended d (opposite fb)))).
Proof. intros HF. unfold valid_positions. by rewrite HF. Qed.

(** C7: [_is_valid_state] returns false exactly when a forbidden pair (fox
    and chicken, or chicken and grain) is on the bank opposite the farmer, and
    true otherwise; so with fox and chicken both opposite the farmer the
    configuration is illegal, and once the farmer is put on their bank it is
    legal. *)
Theorem legality_iff_no_forbidden_pair σ r d fb :
  dicts σ !! r = Some d → dict_get d "Farmer" = Some fb → NoDup d.*1 →
  (_is_valid_state r σ = Ok false σ ↔ forbidden_pair_on d (opposite fb)) ∧
  (_is_valid_state r σ = Ok true σ ↔ ¬ forbidden_pair_on d (opposite fb)) ∧
  (("Fox", opposite fb) ∈ d → ("Chicken", opposite fb) ∈ d →
     _is_valid_state r σ = Ok false σ ∧
     ∀ σ' r', dicts σ' !! r' = Some (dict_set d "Farmer" (opposite fb)) →
              _is_valid_state r' σ' = Ok true σ').
Proof.
  intros Hd HF Hnd.
  rewrite (_is_valid_state_eq _ σ d Hd), (valid_positions_farmer d fb HF).
  pose proof (eaten_iff d (opposite fb)) as Heaten.
  assert (Hfalse : Ok (negb (eaten (unattended d (opposite fb)))) σ = Ok false σ
                   ↔ forbidden_pair_on d (opposite fb)).
  { rewrite <- Heaten. destruct (eaten _); naive_solver. }
  split; [exact Hfalse|]. split.
  { rewrite <- Heaten. destruct (eaten _); naive_solver. }
  intros Hfox Hchicken. split.
  { apply Hfalse. by left. }
  intros σ' r' Hd'. rewrite (_is_valid_state_eq _ σ' _ Hd').
  rewrite (valid_positions_farmer _ (opposite fb)) by apply dict_get_set_eq.
  rewrite opposite_involutive.
  destruct (eaten (unattended (dict_set d "Farmer" (opposite fb)) fb)) eqn:Hbad;
    [|done].
  apply eaten_iff in Hbad.
  assert (Hc : ("Chicken", fb) ∈ d).
  { destruct Hbad as [[_ H]|[H _]]; by apply elem_dict_set_ne in H. }
  apply (elem_dict_get d _ _ Hnd) in Hc, Hchicken.
  rewrite Hc in Hchicken. injection Hchicken as Heq. by destruct fb.
Qed.

Lemma legality_iff_no_forbidden_pair_witness :
  dicts farmer_gone !! 0 = Some (dict_set initial_positions "Farmer" RIGHT) ∧
  dict_get (dict_set initial_positions "Farmer" RIGHT) "Farmer" = Some RIGHT ∧
  NoDup (dict_set initial_positions "Farmer" RIGHT).*1 ∧
  (_is_valid_state 0 farmer_gone = Ok false farmer_gone
   ↔ forbidden_pair_on (dict_set initial_positions "Farmer" RIGHT) (opposite RIGHT)) ∧
  (_is_valid_state 0 farmer_gone = Ok true farmer_gone
   ↔ ¬ forbidden_pair_on (dict_set initial_positions "Farmer" RIGHT) (opposite RIGHT)) ∧
  (("Fox", opposite RIGHT) ∈ dict_set initial_positions "Farmer" RIGHT →
   ("Chicken", opposite RIGHT) ∈ dict_set initial_positions "Farmer" RIGHT →
     _is_valid_state 0 farmer_gone = Ok false farmer_gone ∧
     ∀ σ' r',
       dicts σ' !! r'
       = Some (dict_set (dict_set initial_positions "Farmer" RIGHT) "Farmer" (opposite RIGHT)) →
       _is_valid_state r' σ' = Ok true σ').
Proof.
  split; [reflexivity|]. split; [reflexivity|].
  split; [exact initial_NoDup|].
  apply (legality_iff_no_forbidden_pair farmer_gone 0
           (dict_set initial_positions "Farmer" RIGHT) RIGHT);
    [reflexivity|reflexivity|exact initial_NoDup].
Defined.

(** C10: [make_move('Farmer')] succeeds and does exactly what
    [make_move(None)] does: the farmer alone changes bank and
    [('Farmer', new bank)] is appended to the history. *)
Theorem farmer_named_crosses_alone σ d h fb :
  live σ d h → dict_get d "Farmer" = Some fb →
  make_move (Some "Farmer") σ
  = Ok true (moved σ (dict_set d "Farmer" (opposite fb))
                     (h ++ [("Farmer", opposite fb)])) ∧
  make_move (Some "Farmer") σ = make_move None σ.
Proof.
  intros Hlive HF.
  rewrite (make_move_with σ d h "Farmer" fb Hlive) by done.
  rewrite (make_move_alone σ d h None fb Hlive eq_refl HF).
  unfold cross. by rewrite dict_set_twice.
Qed.

Lemma farmer_named_crosses_alone_witness :
  live fresh initial_positions [] ∧
  dict_get initial_positions "Farmer" = Some LEFT ∧
  make_move (Some "Farmer") fresh
  = Ok true (moved fresh (dict_set initial_positions "Farmer" (opposite LEFT))
                         ([] ++ [("Farmer", opposite LEFT)])) ∧
  make_move (Some "Farmer") fresh = make_move None fresh.
Proof.
  split; [exact live_fresh|]. split; [reflexivity|].
  apply (farmer_named_crosses_alone fresh initial_positions [] LEFT);
    [exact live_fresh|reflexivity].
Defined.

(** C4, as the code has it: for every configuration and every item with a
    non-empty name, [make_move] succeeds exactly when the item is in the
    positions mapping and on the bank of the farmer; a call that does not
    succeed returns [False] (or raises [KeyError] when the mapping has no
    farmer) and leaves the positions, the history and the move count as they
    were. *)
Theorem make_move_succeeds_iff σ d h item :
  live σ d h → item ≠ "" →
  ((∃ σ', make_move (Some item) σ = Ok true σ') ↔ with_farmer d item) ∧
  (with_farmer d item →
     ∃ b, dict_get d "Farmer" = Some b ∧
       make_move (Some item) σ
       = Ok true (moved σ (cross d item (opposite b)) (h ++ [(item, opposite b)]))) ∧
  (¬ with_farmer d item →
     make_move (Some item) σ = Ok false σ ∨
     make_move (Some item) σ = Raised (KeyError "Farmer") σ).
Proof.
  intros Hlive Hitem.
  assert (Hyes : with_farmer d item →
     ∃ b, dict_get d "Farmer" = Some b ∧
       make_move (Some item) σ
       = Ok true (moved σ (cross d item (opposite b)) (h ++ [(item, opposite b)]))).
  { intros (_ & b & Hi & HF). exists b. split; [done|].
    by apply make_move_with. }
  assert (Hno : ¬ with_farmer d item →
     make_move (Some item) σ = Ok false σ ∨
     make_move (Some item) σ = Raised (KeyError "Farmer") σ).
  { intros Hnot. destruct (decide (item ∈ d.*1)) as [Hin|Hout].
    - destruct (proj2 (dict_get_is_Some d item) Hin) as [b Hi].
      destruct (dict_get d "Farmer") as [fb|] eqn:HF.
      + left. apply (make_move_elsewhere σ d h item fb b); try done.
        intros ->. apply Hnot. split; [done|]. by exists fb.
      + right. apply (make_move_no_farmer σ d h); [done| |done].
        simpl. rewrite decide_False by done. by intros ? [= <-].
    - left. by apply (make_move_unknown σ d h). }
  assert (Hdec : with_farmer d item ∨ ¬ with_farmer d item).
  { unfold with_farmer.
    destruct (dict_get d item) as [b|] eqn:Hi; [|right; naive_solver].
    destruct (dict_get d "Farmer") as [fb|] eqn:HF; [|right; naive_solver].
    destruct (decide (b = fb)) as [->|Hne]; [left|right; naive_solver].
    split; [|by exists fb]. apply dict_get_is_Some. eauto. }
  split; [|by split]. split.
  - intros [σ' Hok]. destruct Hdec as [|Hnot]; [done|].
    destruct (Hno Hnot) as [H|H]; rewrite H in Hok; done.
  - intros Hw. destruct (Hyes Hw) as (b & _ & ->). eauto.
Qed.

Lemma make_move_succeeds_iff_witness :
  live fresh initial_positions [] ∧ "Grain" ≠ "" ∧
  ((∃ σ', make_move (Some "Grain") fresh = Ok true σ')
   ↔ with_farmer initial_positions "Grain") ∧
  (with_farmer initial_positions "Grain" →
     ∃ b, dict_get initial_positions "Farmer" = Some b ∧
       make_move (Some "Grain") fresh
       = Ok true (moved fresh (cross initial_positions "Grain" (opposite b))
                              ([] ++ [("Grain", opposite b)]))) ∧
  (¬ with_farmer initial_positions "Grain" →
     make_move (Some "Grain") fresh = Ok false fresh ∨
     make_move (Some "Grain") fresh = Raised (KeyError "Farmer") fresh).
Proof.
  split; [exact live_fresh|]. split; [done|].
  apply (make_move_succeeds_iff fresh initial_positions [] "Grain");
    [exact live_fresh|done].
Defined.

(** The claim C4 as stated fails on the empty name: [make_move('')] succeeds
    on a new game, where [''] is not in the positions mapping, and the farmer
    has crossed. *)
Lemma make_move_empty_name_succeeds :
  "" ∉ (initial_positions.*1) ∧
  make_move (Some "") fresh
  = Ok true (moved fresh (dict_set initial_positions "Farmer" RIGHT) [("Farmer", RIGHT)]).
Proof. split; [exact initial_no_empty_name|reflexivity]. Qed.

(** The nested [dfs] returns whenever its fuel exceeds the number of
    configurations not yet visited. *)
Lemma dfs_total fuel st v σ d h :
  dicts σ !! positions st = Some d → lists σ !! history st = Some h →
  "Farmer" ∈ d.*1 → size (universe d.*1 ∖ v) < fuel →
  ∃ r v' σ',
    dfs fuel st v σ = Ok (r, v') σ' ∧ extends σ σ' ∧
    v ⊆ v' ∧ v' ⊆ v ∪ universe d.*1 ∧
    (all_right d = false → state_key d ∈ v').
Proof.
  intros Hd Hh HF Hsize.
  pose proof (dfs_refines fuel st v σ d h Hd Hh) as Href.
  destruct (search_total_marks fuel d h v HF Hsize)
    as (result & v' & Hs & Hsub & Hsup & Hmark).
  rewrite Hs in Href. destruct Href as (ro & σ' & Hro & Hext & _).
  by exists ro, v', σ'.
Qed.

(** [solve] returns, and leaves the objects that were there untouched. *)
Lemma solve_returns set_order σ d h :
  live σ d h → "Farmer" ∈ d.*1 →
  ∃ r σ1 c,
    solve set_order σ = Ok r (with_cache σ1 c) ∧ extends σ σ1.
Proof.
  intros Hlive HF. unfold solve, solve_with, get_self. unfold bind at 1.
  assert (Hsearch : ∃ r σ1 c,
    solve_search (search_bound σ) σ = Ok r (with_cache σ1 c) ∧ extends σ σ1).
  { pose proof (solve_search_solved (search_bound σ) σ d h Hlive) as Hsol.
    rewrite (search_bound_live σ d h Hlive) in *.
    destruct (search_finishes d h HF) as (result & v' & Hs & _).
    rewrite Hs in Hsol. destruct result as [l|]; simpl in Hsol.
    - destruct Hsol as (r & σ1 & Hext & _ & ->).
      exists (Some r), σ1.
      destruct (bool_decide (l ≠ [])); [by eexists|].
      exists (_cached_solutions (this σ1)). split; [|done].
      f_equal. unfold with_cache. by destruct σ1 as [[]].
    - destruct Hsol as (σ1 & Hext & ->).
      exists None, σ1, (_cached_solutions (this σ1)). split; [|done].
      f_equal. unfold with_cache. by destruct σ1 as [[]]. }
  destruct (_cached_solutions (this σ)) as [s|] eqn:Hs; [|done].
  destruct (bool_decide (s ≠ ∅)); [|done].
  unfold alloc_list, bind, ret.
  exists (Some (length (lists σ))),
    (mkStore (this σ) (dicts σ) (lists σ ++ [set_order s])), (Some s).
  split.
  - f_equal. unfold with_cache. simpl. rewrite <- Hs. by destruct (this σ).
  - repeat split; simpl; [done|by apply prefix_app_r].
Qed.

(** C8: the depth-first search terminates on every configuration.  A call
    of [dfs] returns for any depth bound above the number of configurations
    not yet visited; it only adds configurations of the same entities to the
    visited set, at least the one it was called on when that was neither the
    goal nor visited; there are at most [2 ^ n] of them for [n] entities.  So
    [solve] always returns a result. *)
Theorem search_terminates set_order σ d h :
  live σ d h → "Farmer" ∈ d.*1 →
  (∃ r σ', solve set_order σ = Ok r σ') ∧
  size (universe d.*1) ≤ 2 ^ length d ∧
  ∀ fuel st v σ0 h0,
    dicts σ0 !! positions st = Some d → lists σ0 !! history st = Some h0 →
    size (universe d.*1 ∖ v) < fuel →
    ∃ r v' σ',
      dfs fuel st v σ0 = Ok (r, v') σ' ∧
      v ⊆ v' ∧ v' ⊆ v ∪ universe d.*1 ∧
      (all_right d = false → state_key d ∈ v').
Proof.
  intros Hlive HF. split; [|split].
  - destruct (solve_returns set_order σ d h Hlive HF) as (r & σ1 & c & -> & _).
    eauto.
  - pose proof (size_universe d.*1) as H. by rewrite length_fmap in H.
  - intros fuel st v σ0 h0 Hd Hh Hsize.
    destruct (dfs_total fuel st v σ0 d h0 Hd Hh HF Hsize)
      as (r & v' & σ' & Hdfs & _ & Hrest).
    by exists r, v', σ'.
Qed.

Lemma search_terminates_witness :
  live fresh initial_positions [] ∧ "Farmer" ∈ initial_positions.*1 ∧
  (∃ r σ', solve elements fresh = Ok r σ') ∧
  size (universe initial_positions.*1) ≤ 2 ^ length initial_positions ∧
  ∀ fuel st v σ0 h0,
    dicts σ0 !! positions st = Some initial_positions →
    lists σ0 !! history st = Some h0 →
    size (universe initial_positions.*1 ∖ v) < fuel →
    ∃ r v' σ',
      dfs fuel st v σ0 = Ok (r, v') σ' ∧
      v ⊆ v' ∧ v' ⊆ v ∪ universe initial_positions.*1 ∧
      (all_right initial_positions = false → state_key initial_positions ∈ v').
Proof.
  split; [exact live_fresh|]. split; [exact initial_has_farmer|].
  apply (search_terminates elements fresh initial_positions []);
    [exact live_fresh|exact initial_has_farmer].
Defined.

(** C9: [solve] never changes the live game: after the call the game still
    refers to the same positions mapping and the same history list, their
    contents and the move count are what they were, and so is every other
    object that existed before; only the cached solution may differ. *)
Theorem solve_leaves_game_unchanged set_order σ d h :
  live σ d h → "Farmer" ∈ d.*1 →
  ∃ r σ',
    solve set_order σ = Ok r σ' ∧
    state (this σ') = state (this σ) ∧
    move_count (this σ') = move_count (this σ) ∧
    live σ' d h ∧
    dicts σ `prefix_of` dicts σ' ∧ lists σ `prefix_of` lists σ'.
Proof.
  intros Hlive HF.
  destruct (solve_returns set_order σ d h Hlive HF) as (r & σ1 & c & -> & Hext).
  exists r, (with_cache σ1 c). split; [done|].
  pose proof (extends_live σ σ1 d h Hext Hlive) as Hlive1.
  destruct Hext as (Hthis & Hds & Hls). simpl. rewrite Hthis.
  repeat split; try done; apply Hlive1.
Qed.

Lemma solve_leaves_game_unchanged_witness :
  live fresh initial_positions [] ∧ "Farmer" ∈ initial_positions.*1 ∧
  ∃ r σ',
    solve elements fresh = Ok r σ' ∧
    state (this σ') = state (this fresh) ∧
    move_count (this σ') = move_count (this fresh) ∧
    live σ' initial_positions [] ∧
    dicts fresh `prefix_of` dicts σ' ∧ lists fresh `prefix_of` lists σ'.
Proof.
  split; [exact live_fresh|]. split; [exact initial_has_farmer|].
  apply (solve_leaves_game_unchanged elements fresh initial_positions []);
    [exact live_fresh|exact initial_has_farmer].
Defined.

(** ** A new game *)

Lemma init_new_game σ0 : __init__ σ0 = Ok tt (new_game σ0).
Proof. reflexivity. Qed.

Lemma live_new_game σ0 : live (new_game σ0) initial_positions [].
Proof. split; apply lookup_snoc. Qed.

Lemma search_new_game :
  ∃ v, search (S (2 ^ length initial_positions)) initial_positions [] ∅
       = Done (Some classic_solution, v).
Proof.
  assert (H : match search (S (2 ^ length initial_positions)) initial_positions [] ∅ with
              | Done (Some l, _) => l = classic_solution
              | _ => False
              end) by (vm_compute; reflexivity).
  destruct (search _ _ _ _) as [[[l|] v]| |]; try done. exists v. by subst l.
Qed.

Lemma path_classic_solution : path initial_positions classic_solution.
Proof.
  destruct search_new_game as [v Hs].
  apply search_sound in Hs as (ms & -> & Hpath); [done|exact initial_NoDup].
Qed.

(** The first [solve] of a new game: the result is a new list holding
    [classic_solution], and its set of moves is cached. *)
Lemma solve_new_game set_order σ0 :
  ∃ r σ1,
    solve set_order (new_game σ0)
    = Ok (Some r) (with_cache σ1 (Some (list_to_set classic_solution))) ∧
    extends (new_game σ0) σ1 ∧ lists σ1 !! r = Some classic_solution.
Proof.
  rewrite solve_no_cache by (by intros s [=]).
  pose proof (solve_search_solved (search_bound (new_game σ0)) _ _ _
                (live_new_game σ0)) as Hsol.
  rewrite (search_bound_live _ _ _ (live_new_game σ0)) in *.
  destruct search_new_game as [v Hs]. rewrite Hs in Hsol.
  destruct Hsol as (r & σ1 & Hext & Hr & Hsolve).
  exists r, σ1. rewrite Hsolve. split; [|by split].
  by rewrite bool_decide_eq_true_2.
Qed.

(** C1: on a newly constructed game the first [solve] returns a non-empty
    sequence of exactly 7 moves (the chicken across, the farmer back, the fox
    across, the chicken back, the grain across, the farmer back, the chicken
    across); played in order on the new game, every move is accepted, every
    state is valid and the game ends won, with every entity on the right
    bank.  The length is odd and at least 7. *)
Theorem first_solve_finds_seven_moves set_order σ0 :
  ∃ r σ' l,
    __init__ σ0 = Ok tt (new_game σ0) ∧
    solve set_order (new_game σ0) = Ok (Some r) σ' ∧
    lists σ' !! r = Some l ∧
    l = classic_solution ∧ l ≠ [] ∧ length l = 7 ∧ Nat.Odd (length l) ∧ 7 ≤ length l ∧
    ∃ σ'' d',
      replay l (new_game σ0) = Ok true σ'' ∧
      live σ'' d' l ∧ all_right d' = true ∧ is_won σ'' = Ok true σ''.
Proof.
  destruct (solve_new_game set_order σ0) as (r & σ1 & Hsolve & Hext & Hr).
  exists r, (with_cache σ1 (Some (list_to_set classic_solution))), classic_solution.
  split; [done|]. split; [done|]. split; [done|]. split; [done|].
  split; [done|]. split; [done|]. split; [by exists 3|]. split; [done|].
  destruct (path_replay classic_solution (new_game σ0) initial_positions []
              (live_new_game σ0) initial_NoDup initial_no_empty_name
              path_classic_solution) as (σ'' & d' & Hrep & Hlive & Hwon & _).
  exists σ'', d'. split; [done|]. split; [done|]. split; [done|].
  unfold is_won, get_self. unfold bind at 1.
  rewrite (bind_Ok _ _ _ _ _ (read_dict_Ok _ _ _ (proj1 Hlive))).
  unfold ret. by rewrite Hwon.
Qed.

(** C2, what the code does: after the first [solve] of a new game returned
    its 7 moves, a second [solve] on the unchanged game returns the cached set
    as a list: 5 moves, because two of the 7 occur twice. *)
Theorem second_solve_returns_five_moves set_order σ0 :
  is_set_order set_order →
  ∃ r1 σ1 l1 r2 σ2 l2,
    solve set_order (new_game σ0) = Ok (Some r1) σ1 ∧
    lists σ1 !! r1 = Some l1 ∧ length l1 = 7 ∧
    live σ1 initial_positions [] ∧
    solve set_order σ1 = Ok (Some r2) σ2 ∧
    lists σ2 !! r2 = Some l2 ∧ length l2 = 5.
Proof.
  intros Horder.
  destruct (solve_new_game set_order σ0) as (r & σ1 & Hsolve & Hext & Hr).
  set (s := list_to_set classic_solution : gset Move) in *.
  exists r, (with_cache σ1 (Some s)), classic_solution.
  exists (length (lists σ1)),
    (mkStore (this (with_cache σ1 (Some s))) (dicts σ1) (lists σ1 ++ [set_order s])),
    (set_order s).
  split; [done|]. split; [done|]. split; [done|].
  split; [apply live_with_cache, (extends_live _ _ _ _ Hext), live_new_game|].
  split; [|split].
  - unfold solve, solve_with, get_self. unfold bind at 1. simpl.
    rewrite bool_decide_eq_true_2; [done|].
    intros Hempty. assert (Hin : ("Grain", RIGHT) ∈ s) by (unfold s, classic_solution; set_solver).
    rewrite Hempty in Hin. set_solver.
  - apply lookup_snoc.
  - rewrite (Permutation_length (Horder s)). by vm_compute.
Qed.

Lemma second_solve_returns_five_moves_witness :
  is_set_order elements ∧
  ∃ r1 σ1 l1 r2 σ2 l2,
    solve elements (new_game empty_store) = Ok (Some r1) σ1 ∧
    lists σ1 !! r1 = Some l1 ∧ length l1 = 7 ∧
    live σ1 initial_positions [] ∧
    solve elements σ1 = Ok (Some r2) σ2 ∧
    lists σ2 !! r2 = Some l2 ∧ length l2 = 5.
Proof.
  assert (H : is_set_order elements) by (intros s; reflexivity).
  split; [exact H|].
  apply (second_solve_returns_five_moves elements empty_store H).
Defined.

(** ** What an uncached [solve] returns *)

Section SearchPrefix.

Variable prec : Dict → list Move → Visited → res (option (list Move) * Visited).

Hypothesis prec_prefix : ∀ d h v l v',
  prec d h v = Done (Some l, v') → h `prefix_of` l.

Lemma search_items_prefix d h fb items : ∀ v l v',
  search_items prec d h fb items v = Done (Some l, v') → h `prefix_of` l.
Proof.
  induction items as [|item items IH]; intros v l v'; simpl; [done|].
  destruct (valid_positions _) as [[|]|]; [|by apply IH|done].
  destruct (prec _ _ v) as [[result v1]|e|] eqn:Hprec; [|done|done].
  destruct (nonempty result); [|by apply IH].
  intros [= -> ->]. apply prec_prefix in Hprec.
  etrans; [|exact Hprec]. by apply prefix_app_r.
Qed.

End SearchPrefix.

Lemma search_prefix fuel : ∀ d h v l v',
  search fuel d h v = Done (Some l, v') → h `prefix_of` l.
Proof.
  induction fuel as [|fuel IH]; intros d h v l v'; [done|].
  cbn [search].
  destruct (all_right d); [by intros [= <- <-]|].
  destruct (decide (state_key d ∈ v)); [done|].
  destruct (dict_get d "Farmer") as [fb|]; [|done].
  destruct (valid_positions _) as [valid|]; [|done].
  destruct (if valid then _ else _) as [[result v1]|e|] eqn:Hrec; [|done|done].
  destruct (nonempty result).
  - intros [= -> ->]. destruct valid; [|done].
    apply IH in Hrec. etrans; [|exact Hrec]. by apply prefix_app_r.
  - by apply search_items_prefix.
Qed.

(** On a goal configuration the search returns the history list itself. *)
Lemma solve_search_goal fuel σ d h :
  live σ d h → all_right d = true →
  solve_search (S fuel) σ
  = Ok (Some (history (state (this σ))))
       (if bool_decide (h ≠ []) then with_cache σ (Some (list_to_set h)) else σ).
Proof.
  intros [Hd Hh] Hgoal. unfold solve_search, get_self. unfold bind at 1.
  cbn [dfs].
  rewrite (bind_bind_Ok _ _ _ _ _ _ (read_dict_Ok _ _ _ Hd)). rewrite Hgoal.
  unfold ret at 1, bind at 1. cbn beta iota.
  assert (Ht : truthy (Some (history (state (this σ)))) σ = Ok (nonempty (Some h)) σ).
  { apply truthy_refines. by exists (history (state (this σ))). }
  rewrite (bind_Ok _ _ _ _ _ Ht).
  destruct h as [|m h]; simpl; [done|].
  unfold bind at 1. by rewrite (bind_Ok _ _ _ _ _ (read_list_Ok _ _ _ Hh)).
Qed.

Lemma solve_cached set_order σ s :
  _cached_solutions (this σ) = Some s → s ≠ ∅ →
  solve set_order σ
  = Ok (Some (length (lists σ)))
       (mkStore (this σ) (dicts σ) (lists σ ++ [set_order s])).
Proof.
  intros Hs Hne. unfold solve, solve_with, get_self. unfold bind at 1.
  rewrite Hs. by rewrite bool_decide_eq_true_2.
Qed.

(** What an uncached [solve] returns when it returns a list: the history
    followed by a path to the goal; the game itself is as it was. *)
Lemma solve_no_cache_sound set_order σ d h r σ' :
  live σ d h → NoDup d.*1 → no_cache σ →
  solve set_order σ = Ok (Some r) σ' →
  ∃ ms, lists σ' !! r = Some (h ++ ms) ∧ path d ms ∧ live σ' d h.
Proof.
  intros Hlive Hnd Hc. rewrite solve_no_cache by done.
  pose proof (solve_search_solved (search_bound σ) σ d h Hlive) as Hsol.
  destruct (search _ d h ∅) as [[[l|] v]|e|] eqn:Hs; simpl in Hsol.
  - destruct Hsol as (r0 & σ1 & Hext & Hr & ->). intros [= <- <-].
    apply search_sound in Hs as (ms & -> & Hpath); [|done].
    exists ms. pose proof (extends_live _ _ _ _ Hext Hlive) as Hlive1.
    destruct (bool_decide _); [|done].
    split; [done|]. split; [done|]. by apply live_with_cache.
  - destruct Hsol as (σ1 & _ & ->). done.
  - destruct Hsol as (σ1 & _ & ->). done.
  - by rewrite Hsol.
Qed.

(** C3, as the code has it: when no cached solution is returned, the moves
    of the returned sequence that follow the recorded history pass through
    legal configurations only.  Played in order from the start configuration,
    each move is accepted by [make_move] and leaves a state that
    [is_valid_state] accepts, and the last one leaves the goal. *)
Theorem uncached_solution_is_legal set_order σ d h r σ' :
  live σ d h → NoDup d.*1 → "" ∉ d.*1 → no_cache σ →
  solve set_order σ = Ok (Some r) σ' →
  ∃ ms σ'' d',
    lists σ' !! r = Some (h ++ ms) ∧ path d ms ∧
    replay ms σ' = Ok true σ'' ∧
    live σ'' d' (h ++ ms) ∧ all_right d' = true.
Proof.
  intros Hlive Hnd Hempty Hc Hsolve.
  destruct (solve_no_cache_sound set_order σ d h r σ' Hlive Hnd Hc Hsolve)
    as (ms & Hr & Hpath & Hlive').
  destruct (path_replay ms σ' d h Hlive' Hnd Hempty Hpath)
    as (σ'' & d' & Hrep & Hl & Hwon & _).
  by exists ms, σ'', d'.
Qed.

Lemma no_cache_fresh : no_cache fresh.
Proof. by intros s [=]. Qed.

Lemma solve_fresh_computed :
  solve elements fresh = Ok (Some 15) (after (solve elements) fresh).
Proof. vm_compute. reflexivity. Qed.

Lemma uncached_solution_is_legal_witness :
  live fresh initial_positions [] ∧ NoDup initial_positions.*1 ∧
  "" ∉ (initial_positions.*1) ∧ no_cache fresh ∧
  solve elements fresh = Ok (Some 15) (after (solve elements) fresh) ∧
  ∃ ms σ'' d',
    lists (after (solve elements) fresh) !! 15 = Some ([] ++ ms) ∧
    path initial_positions ms ∧
    replay ms (after (solve elements) fresh) = Ok true σ'' ∧
    live σ'' d' ([] ++ ms) ∧ all_right d' = true.
Proof.
  split; [exact live_fresh|]. split; [exact initial_NoDup|].
  split; [exact initial_no_empty_name|]. split; [exact no_cache_fresh|].
  split; [exact solve_fresh_computed|].
  apply (uncached_solution_is_legal elements fresh initial_positions [] 15
           (after (solve elements) fresh));
    [exact live_fresh|exact initial_NoDup|exact initial_no_empty_name
    |exact no_cache_fresh|exact solve_fresh_computed].
Defined.

(** C5, as the code has it: when no cached solution is returned, the
    returned sequence begins with the history of the start configuration, so
    that its entry at index [len(history)] is the first new move; and on a
    configuration that is already the goal [solve] returns the history list
    itself. *)
Theorem uncached_solution_begins_with_history set_order σ d h :
  live σ d h → no_cache σ →
  (∀ r σ', solve set_order σ = Ok (Some r) σ' →
     ∃ ms, lists σ' !! r = Some (h ++ ms) ∧ h `prefix_of` (h ++ ms) ∧
           (h ++ ms) !! length h = head ms) ∧
  (all_right d = true →
     ∃ σ', solve set_order σ = Ok (Some (history (state (this σ)))) σ' ∧
           lists σ' !! history (state (this σ)) = Some h).
Proof.
  intros Hlive Hc. rewrite !solve_no_cache by done. split.
  - intros r σ'.
    pose proof (solve_search_solved (search_bound σ) σ d h Hlive) as Hsol.
    destruct (search _ d h ∅) as [[[l|] v]|e|] eqn:Hs; simpl in Hsol.
    + destruct Hsol as (r0 & σ1 & Hext & Hr & ->). intros [= <- <-].
      apply search_prefix in Hs as [ms ->]. exists ms.
      split; [by destruct (bool_decide _)|]. split; [by apply prefix_app_r|].
      rewrite lookup_app_r by lia. by rewrite Nat.sub_diag, head_lookup.
    + destruct Hsol as (σ1 & _ & ->). done.
    + destruct Hsol as (σ1 & _ & ->). done.
    + by rewrite Hsol.
  - intros Hgoal. unfold search_bound.
    rewrite (solve_search_goal _ σ d h Hlive Hgoal).
    eexists. split; [done|]. destruct (bool_decide _); apply Hlive.
Qed.

Lemma live_won : live won goal_positions classic_solution.
Proof. split; reflexivity. Qed.

Lemma no_cache_won : no_cache won.
Proof. intros s Hs. vm_compute in Hs. done. Qed.

Lemma uncached_solution_begins_with_history_witness :
  live won goal_positions classic_solution ∧ no_cache won ∧
  (∀ r σ', solve elements won = Ok (Some r) σ' →
     ∃ ms, lists σ' !! r = Some (classic_solution ++ ms) ∧
           classic_solution `prefix_of` (classic_solution ++ ms) ∧
           (classic_solution ++ ms) !! length classic_solution = head ms) ∧
  (all_right goal_positions = true →
     ∃ σ', solve elements won = Ok (Some (history (state (this won)))) σ' ∧
           lists σ' !! history (state (this won)) = Some classic_solution).
Proof.
  split; [exact live_won|]. split; [exact no_cache_won|].
  apply (uncached_solution_begins_with_history elements won goal_positions
           classic_solution); [exact live_won|exact no_cache_won].
Defined.

(** ** Where the claims C3 and C5 fail as stated *)

Lemma after_solve_new set_order :
  after (solve set_order) fresh = after (solve_search (search_bound fresh)) fresh.
Proof. unfold after. by rewrite (solve_no_cache set_order fresh no_cache_fresh). Qed.

Lemma cached_moves_not_empty : (list_to_set classic_solution : gset Move) ≠ ∅.
Proof.
  intros Hempty.
  assert (Hin : ("Grain", RIGHT) ∈ (list_to_set classic_solution : gset Move))
    by (unfold classic_solution; set_solver).
  rewrite Hempty in Hin. set_solver.
Qed.

(** However the five cached moves are ordered, they cannot be played after
    the chicken was taken across. *)
Lemma cached_moves_unplayable (l : list Move) :
  l ≡ₚ elements (list_to_set classic_solution : gset Move) →
  play (cross initial_positions "Chicken" RIGHT) l ≠ Done true.
Proof.
  intros Hperm. symmetry in Hperm. apply permutations_Permutation in Hperm.
  assert (Hall : forallb (λ l, match play (cross initial_positions "Chicken" RIGHT) l with
                              | Done true => false
                              | _ => true
                              end)
                   (permutations (elements (list_to_set classic_solution : gset Move)))
                 = true) by (vm_compute; reflexivity).
  rewrite forallb_forall in Hall.
  specialize (Hall l (proj1 (list_elem_of_In _ _) Hperm)).
  intros Hp. by rewrite Hp in Hall.
Qed.

(** The claim C3 as stated fails in two ways.  A game whose history is not
    empty (here: the chicken was taken across) gets a sequence that begins
    with that history, and playing it from the present configuration is
    refused.  And once a solution is cached, [solve] returns the five cached
    moves in the order of the set, and no order of them can be played from
    the configuration after the chicken was taken across.  Both
    configurations are legal. *)
Lemma returned_sequence_not_replayable :
  is_valid_state chicken_across = Ok true chicken_across ∧
  ¬ (∃ set_order, replays_legally set_order chicken_across) ∧
  ¬ (∃ set_order, is_set_order set_order ∧
       replays_legally set_order
         (after (make_move (Some "Chicken")) (after (solve set_order) fresh))).
Proof.
  split; [reflexivity|]. split.
  - intros [f H]. unfold replays_legally in H.
    assert (Hc : no_cache chicken_across)
      by (intros s Hs; vm_compute in Hs; done).
    rewrite (solve_no_cache f _ Hc) in H.
    assert (Hrun : match solve_search (search_bound chicken_across) chicken_across with
                   | Ok (Some r) σ' =>
                       match lists σ' !! r with
                       | Some l => match replay l σ' with
                                   | Ok true _ => False
                                   | _ => True
                                   end
                       | None => False
                       end
                   | _ => False
                   end) by (vm_compute; exact I).
    destruct (solve_search _ _) as [[r|] σ'| |]; try done.
    destruct (lists σ' !! r) as [l|] eqn:Hl; [|done].
    destruct (H r σ' l eq_refl Hl) as [σ'' Hrep]. by rewrite Hrep in Hrun.
  - intros (f & Hf & H). rewrite after_solve_new in H.
    set (σ := after (make_move (Some "Chicken"))
                (after (solve_search (search_bound fresh)) fresh)) in H.
    assert (Hthis : this σ = mkGame (mkGameState 0 0) 1
                                    (Some (list_to_set classic_solution)))
      by (vm_compute; reflexivity).
    assert (Hlive : live σ (cross initial_positions "Chicken" RIGHT) [("Chicken", RIGHT)])
      by (split; vm_compute; reflexivity).
    assert (Hsolve := solve_cached f σ (list_to_set classic_solution)
                        ltac:(by rewrite Hthis) cached_moves_not_empty).
    destruct (H _ _ _ Hsolve (lookup_snoc _ _)) as [σ'' Hrep].
    assert (Hlive' : live (mkStore (this σ) (dicts σ)
                             (lists σ ++ [f (list_to_set classic_solution)]))
                       (cross initial_positions "Chicken" RIGHT) [("Chicken", RIGHT)]).
    { destruct Hlive as [Hd Hh]. split; [done|]. simpl.
      by apply lookup_app_l_Some. }
    pose proof (replay_play (f (list_to_set classic_solution)) _ _ _ Hlive') as Hplay.
    pose proof (cached_moves_unplayable _ (Hf (list_to_set classic_solution))) as Hno.
    destruct (play _ _) as [b|e|]; [|by destruct Hplay as [? Hp]; rewrite Hp in Hrep|done].
    destruct Hplay as [σ3 Hp]. rewrite Hp in Hrep. injection Hrep as -> _.
    exact (Hno eq_refl).
Qed.

(** The claim C5 as stated fails once a solution is cached: a player who
    asked for a hint on the new game and then made the seven moves has a
    history of seven moves, and [solve] returns the five cached moves,
    whatever their order. *)
Lemma cached_solution_ignores_history :
  ¬ (∃ set_order, is_set_order set_order ∧
       begins_with_history set_order
         (after (replay classic_solution) (after (solve set_order) fresh))).
Proof.
  intros (f & Hf & H). rewrite after_solve_new in H.
  set (σ := after (replay classic_solution)
              (after (solve_search (search_bound fresh)) fresh)) in H.
  assert (Hthis : this σ = mkGame (mkGameState 0 0) 7
                                  (Some (list_to_set classic_solution)))
    by (vm_compute; reflexivity).
  assert (Hh : lists σ !! history (state (this σ)) = Some classic_solution)
    by (vm_compute; reflexivity).
  assert (Hsolve := solve_cached f σ (list_to_set classic_solution)
                      ltac:(by rewrite Hthis) cached_moves_not_empty).
  pose proof (H _ _ _ _ Hsolve (lookup_snoc _ _) Hh) as Hprefix%prefix_length.
  rewrite (Permutation_length (Hf _)) in Hprefix.
  assert (Hfive : length (elements (list_to_set classic_solution : gset Move)) = 5)
    by (by vm_compute).
  rewrite Hfive in Hprefix. simpl in Hprefix. lia.
Qed.

(** * Further properties of the code *)

(** ** [Bank.opposite] *)

(** X1: [opposite] is an involution without a fixed point: applied twice it
    gives the bank back, and it never gives the bank it was applied to. *)
Theorem opposite_swaps_banks b : opposite (opposite b) = b ∧ opposite b ≠ b.
Proof. by destruct b. Qed.

(** ** [GameState.copy] *)

(** X2: [copy] makes a new dictionary and a new list with the contents of the
    old ones; writing to the copy afterwards leaves the original untouched. *)
Theorem copy_is_independent st σ d h k v x :
  dicts σ !! positions st = Some d → lists σ !! history st = Some h →
  ∃ st' σ1 σ2,
    copy st σ = Ok st' σ1 ∧
    positions st' ≠ positions st ∧ history st' ≠ history st ∧
    dicts σ1 !! positions st' = Some d ∧ lists σ1 !! history st' = Some h ∧
    extends σ σ1 ∧
    (setitem (positions st') k v ;;; append (history st') x) σ1 = Ok tt σ2 ∧
    dicts σ2 !! positions st' = Some (dict_set d k v) ∧
    lists σ2 !! history st' = Some (h ++ [x]) ∧
    dicts σ2 !! positions st = Some d ∧ lists σ2 !! history st = Some h.
Proof.
  intros Hd Hh.
  pose proof (lookup_lt_Some _ _ _ Hd) as Hltd.
  pose proof (lookup_lt_Some _ _ _ Hh) as Hlth.
  exists (branch_state σ), (branch_store σ d h),
    (branch_store σ (dict_set d k v) (h ++ [x])).
  split; [by apply copy_Ok|].
  split; [simpl; lia|]. split; [simpl; lia|].
  split; [apply branch_store_dict|]. split; [apply branch_store_list|].
  split; [apply extends_branch|].
  split.
  { erewrite bind_Ok by (apply setitem_Ok, branch_store_dict).
    erewrite append_Ok by (simpl; apply lookup_snoc).
    simpl. by rewrite !insert_snoc. }
  split; [apply branch_store_dict|]. split; [apply branch_store_list|].
  split; simpl; by apply lookup_app_l_Some.
Qed.

Lemma copy_is_independent_witness :
  dicts fresh !! positions (state (this fresh)) = Some initial_positions ∧
  lists fresh !! history (state (this fresh)) = Some [] ∧
  ∃ st' σ1 σ2,
    copy (state (this fresh)) fresh = Ok st' σ1 ∧
    positions st' ≠ positions (state (this fresh)) ∧
    history st' ≠ history (state (this fresh)) ∧
    dicts σ1 !! positions st' = Some initial_positions ∧
    lists σ1 !! history st' = Some [] ∧
    extends fresh σ1 ∧
    (setitem (positions st') "Fox" RIGHT ;;; append (history st') ("Fox", RIGHT)) σ1
    = Ok tt σ2 ∧
    dicts σ2 !! positions st' = Some (dict_set initial_positions "Fox" RIGHT) ∧
    lists σ2 !! history st' = Some ([] ++ [("Fox", RIGHT)]) ∧
    dicts σ2 !! positions (state (this fresh)) = Some initial_positions ∧
    lists σ2 !! history (state (this fresh)) = Some [].
Proof.
  split; [reflexivity|]. split; [reflexivity|].
  apply (copy_is_independent (state (this fresh)) fresh initial_positions []
           "Fox" RIGHT ("Fox", RIGHT)); reflexivity.
Defined.

(** ** [__init__] *)

(** X3: whatever objects exist already, [__init__] leaves them alone and
    makes a game on new objects: everyone on the left bank, no history, no
    move counted, nothing cached; the game is valid and not won. *)
Theorem init_makes_a_new_game σ0 :
  ∃ σ,
    __init__ σ0 = Ok tt σ ∧
    live σ initial_positions [] ∧
    positions (state (this σ)) = length (dicts σ0) ∧
    history (state (this σ)) = length (lists σ0) ∧
    move_count (this σ) = 0 ∧ _cached_solutions (this σ) = None ∧
    dicts σ0 `prefix_of` dicts σ ∧ lists σ0 `prefix_of` lists σ ∧
    is_valid_state σ = Ok true σ ∧ is_won σ = Ok false σ.
Proof.
  exists (new_game σ0).
  pose proof (live_new_game σ0) as Hlive.
  split; [done|]. split; [done|]. split; [done|]. split; [done|].
  split; [done|]. split; [done|].
  split; [by apply prefix_app_r|]. split; [by apply prefix_app_r|].
  split.
  - by rewrite (is_valid_state_eq _ _ (proj1 Hlive)).
  - unfold is_won, get_self. unfold bind at 1.
    by rewrite (bind_Ok _ _ _ _ _ (read_dict_Ok _ _ _ (proj1 Hlive))).
Qed.

(** ** [is_won] *)

Lemma all_right_iff (d : Dict) :
  all_right d = true ↔ ∀ item bank, (item, bank) ∈ d → bank = RIGHT.
Proof.
  unfold all_right. rewrite forallb_forall. split.
  - intros H item bank Hin.
    specialize (H (item, bank) (proj1 (list_elem_of_In _ _) Hin)).
    by apply bool_decide_eq_true in H.
  - intros H [item bank] Hin. apply bool_decide_eq_true. simpl.
    apply (H item). by apply list_elem_of_In.
Qed.

Lemma is_won_eq σ d :
  dicts σ !! positions (state (this σ)) = Some d → is_won σ = Ok (all_right d) σ.
Proof.
  intros Hd. unfold is_won, get_self. unfold bind at 1.
  by rewrite (bind_Ok _ _ _ _ _ (read_dict_Ok _ _ _ Hd)).
Qed.

(** X4: [is_won] returns [True] exactly when every entity of the mapping is
    on the right bank (so also on an empty mapping), [False] exactly when
    some entity is on the left bank; it changes nothing. *)
Theorem is_won_iff_everyone_right σ d :
  dicts σ !! positions (state (this σ)) = Some d →
  (is_won σ = Ok true σ ↔ ∀ item bank, (item, bank) ∈ d → bank = RIGHT) ∧
  (is_won σ = Ok false σ ↔ ∃ item, (item, LEFT) ∈ d).
Proof.
  intros Hd. rewrite (is_won_eq σ d Hd).
  pose proof (all_right_iff d) as Hall.
  destruct (all_right d) eqn:Hr.
  - split; [naive_solver|]. split; [done|].
    intros [item Hin]. by apply (proj1 Hall eq_refl) in Hin.
  - split; [split; [done|]; intros H; apply Hall in H; done|].
    split; [intros _|done].
    assert (Hex : ¬ ∀ item bank, (item, bank) ∈ d → bank = RIGHT)
      by (intros H; apply Hall in H; done).
    clear Hall Hr Hd. induction d as [|[item bank] d IH].
    + exfalso. apply Hex. by intros ? ? ?%elem_of_nil.
    + destruct bank.
      * exists item. apply list_elem_of_here.
      * destruct IH as [item' Hin].
        -- intros H. apply Hex. intros i b [[= -> ->]|Hi]%elem_of_cons; [done|].
           by apply (H i).
        -- exists item'. by apply list_elem_of_further.
Qed.

Lemma is_won_iff_everyone_right_witness :
  dicts fresh !! positions (state (this fresh)) = Some initial_positions ∧
  (is_won fresh = Ok true fresh
   ↔ ∀ item bank, (item, bank) ∈ initial_positions → bank = RIGHT) ∧
  (is_won fresh = Ok false fresh ↔ ∃ item, (item, LEFT) ∈ initial_positions).
Proof.
  split; [reflexivity|].
  apply (is_won_iff_everyone_right fresh initial_positions). reflexivity.
Defined.

(** ** [get_items_at_bank] *)

Lemma get_items_at_bank_eq σ d bank :
  dicts σ !! positions (state (this σ)) = Some d →
  get_items_at_bank bank σ = Ok (items_at d bank) σ.
Proof.
  intros Hd. unfold get_items_at_bank, get_self. unfold bind at 1.
  by rewrite (bind_Ok _ _ _ _ _ (read_dict_Ok _ _ _ Hd)).
Qed.

Lemma items_at_NoDup (d : Dict) bank : NoDup d.*1 → NoDup (items_at d bank).
Proof.
  intros Hnd. unfold items_at. apply NoDup_fmap_fst.
  - intros k b1 b2 [_ H1]%list_elem_of_filter [_ H2]%list_elem_of_filter.
    apply (elem_dict_get d _ _ Hnd) in H1, H2. congruence.
  - apply NoDup_filter. by eapply NoDup_fmap_1.
Qed.

(** X5: the two banks split the entities: [get_items_at_bank] lists exactly
    the entities the mapping puts on the bank asked for, each once, so no
    entity is on both banks and the two lists together are the entities of
    the mapping. *)
Theorem banks_split_the_items σ d :
  dicts σ !! positions (state (this σ)) = Some d → NoDup d.*1 →
  ∃ l r,
    get_items_at_bank LEFT σ = Ok l σ ∧ get_items_at_bank RIGHT σ = Ok r σ ∧
    (∀ x, x ∈ l ↔ dict_get d x = Some LEFT) ∧
    (∀ x, x ∈ r ↔ dict_get d x = Some RIGHT) ∧
    NoDup (l ++ r) ∧ l ++ r ≡ₚ d.*1.
Proof.
  intros Hd Hnd. exists (items_at d LEFT), (items_at d RIGHT).
  split; [by apply get_items_at_bank_eq|]. split; [by apply get_items_at_bank_eq|].
  assert (Hin : ∀ bank x, x ∈ items_at d bank ↔ dict_get d x = Some bank).
  { intros bank x. rewrite items_at_elem. split; [by apply elem_dict_get|apply dict_get_elem]. }
  split; [apply Hin|]. split; [apply Hin|].
  assert (Hnd2 : NoDup (items_at d LEFT ++ items_at d RIGHT)).
  { apply NoDup_app. split; [by apply items_at_NoDup|]. split; [|by apply items_at_NoDup].
    intros x Hl Hr. apply Hin in Hl, Hr. congruence. }
  split; [done|].
  apply NoDup_Permutation; [done|done|].
  intros x. rewrite elem_of_app, !Hin, <- dict_get_is_Some.
  split.
  - intros [H|H]; rewrite H; eauto.
  - intros [[] H]; eauto.
Qed.

Lemma banks_split_the_items_witness :
  dicts chicken_across !! positions (state (this chicken_across))
  = Some (cross initial_positions "Chicken" RIGHT) ∧
  NoDup (cross initial_positions "Chicken" RIGHT).*1 ∧
  ∃ l r,
    get_items_at_bank LEFT chicken_across = Ok l chicken_across ∧
    get_items_at_bank RIGHT chicken_across = Ok r chicken_across ∧
    (∀ x, x ∈ l ↔ dict_get (cross initial_positions "Chicken" RIGHT) x = Some LEFT) ∧
    (∀ x, x ∈ r ↔ dict_get (cross initial_positions "Chicken" RIGHT) x = Some RIGHT) ∧
    NoDup (l ++ r) ∧ l ++ r ≡ₚ (cross initial_positions "Chicken" RIGHT).*1.
Proof.
  split; [reflexivity|]. split; [exact initial_NoDup|].
  apply (banks_split_the_items chicken_across (cross initial_positions "Chicken" RIGHT));
    [reflexivity|exact initial_NoDup].
Defined.

(** ** The validity tests without a farmer, and with the chicken guarded *)

(** X6: on a positions mapping without ['Farmer'] both validity tests raise
    [KeyError('Farmer')] and change nothing. *)
Theorem validity_tests_need_farmer σ d :
  dicts σ !! positions (state (this σ)) = Some d → "Farmer" ∉ d.*1 →
  is_valid_state σ = Raised (KeyError "Farmer") σ ∧
  _is_valid_state (positions (state (this σ))) σ = Raised (KeyError "Farmer") σ.
Proof.
  intros Hd HF. apply dict_get_None in HF.
  rewrite (is_valid_state_eq σ d Hd), (_is_valid_state_eq _ σ d Hd).
  unfold valid_positions. by rewrite HF.
Qed.

Lemma validity_tests_need_farmer_witness :
  dicts (mkStore (mkGame (mkGameState 0 0) 0 None) [[("Fox", LEFT)]] [[]])
    !! 0 = Some [("Fox", LEFT)] ∧
  ("Farmer" ∉ [("Fox", LEFT)].*1) ∧
  is_valid_state (mkStore (mkGame (mkGameState 0 0) 0 None) [[("Fox", LEFT)]] [[]])
  = Raised (KeyError "Farmer")
      (mkStore (mkGame (mkGameState 0 0) 0 None) [[("Fox", LEFT)]] [[]]) ∧
  _is_valid_state 0 (mkStore (mkGame (mkGameState 0 0) 0 None) [[("Fox", LEFT)]] [[]])
  = Raised (KeyError "Farmer")
      (mkStore (mkGame (mkGameState 0 0) 0 None) [[("Fox", LEFT)]] [[]]).
Proof.
  assert (H : "Farmer" ∉ [("Fox", LEFT)].*1).
  { apply (bool_decide_unpack _). by vm_compute. }
  split; [reflexivity|]. split; [exact H|].
  apply (validity_tests_need_farmer
           (mkStore (mkGame (mkGameState 0 0) 0 None) [[("Fox", LEFT)]] [[]])
           [("Fox", LEFT)]); [reflexivity|exact H].
Defined.

(** X7: both forbidden pairs contain the chicken, so a configuration in which
    the chicken is on the bank of the farmer is always valid, wherever the
    fox and the grain are. *)
Theorem guarded_chicken_is_valid σ d bank :
  dicts σ !! positions (state (this σ)) = Some d → NoDup d.*1 →
  dict_get d "Farmer" = Some bank → dict_get d "Chicken" = Some bank →
  is_valid_state σ = Ok true σ ∧
  _is_valid_state (positions (state (this σ))) σ = Ok true σ.
Proof.
  intros Hd Hnd HF HC.
  rewrite (is_valid_state_eq σ d Hd), (_is_valid_state_eq _ σ d Hd).
  rewrite (valid_positions_farmer d bank HF).
  destruct (eaten _) eqn:Hbad; [|done].
  apply eaten_iff in Hbad.
  assert (Hc : ("Chicken", opposite bank) ∈ d) by (by destruct Hbad as [[_ H]|[H _]]).
  apply (elem_dict_get d _ _ Hnd) in Hc. rewrite Hc in HC.
  injection HC as HC. by destruct bank.
Qed.

Lemma guarded_chicken_is_valid_witness :
  dicts chicken_across !! positions (state (this chicken_across))
  = Some (cross initial_positions "Chicken" RIGHT) ∧
  NoDup (cross initial_positions "Chicken" RIGHT).*1 ∧
  dict_get (cross initial_positions "Chicken" RIGHT) "Farmer" = Some RIGHT ∧
  dict_get (cross initial_positions "Chicken" RIGHT) "Chicken" = Some RIGHT ∧
  is_valid_state chicken_across = Ok true chicken_across ∧
  _is_valid_state (positions (state (this chicken_across))) chicken_across
  = Ok true chicken_across.
Proof.
  split; [reflexivity|]. split; [exact initial_NoDup|].
  split; [reflexivity|]. split; [reflexivity|].
  apply (guarded_chicken_is_valid chicken_across
           (cross initial_positions "Chicken" RIGHT) RIGHT);
    [reflexivity|exact initial_NoDup|reflexivity|reflexivity].
Defined.
(** ** [make_move] *)

Lemma dict_ext (d1 : Dict) : ∀ d2 : Dict,
  d1.*1 = d2.*1 → NoDup d1.*1 →
  (∀ k, dict_get d1 k = dict_get d2 k) → d1 = d2.
Proof.
  induction d1 as [|[k v1] d1 IH]; intros [|[k2 v2] d2] Hkeys Hnd Hget; try done.
  rewrite !fmap_cons in Hkeys. simpl in Hkeys. injection Hkeys as <- Hkeys.
  rewrite fmap_cons in Hnd. apply NoDup_cons in Hnd as [Hk Hnd].
  pose proof (Hget k) as Hk0. simpl in Hk0. rewrite !decide_True in Hk0 by done.
  injection Hk0 as <-. f_equal. apply IH; [done|done|].
  intros k'. destruct (decide (k = k')) as [<-|Hne].
  - assert (H1 : dict_get d1 k = None) by by apply dict_get_None.
    assert (H2 : dict_get d2 k = None) by (apply dict_get_None; by rewrite <- Hkeys).
    by rewrite H1, H2.
  - specialize (Hget k'). simpl in Hget. by rewrite !decide_False in Hget by done.
Qed.

Lemma dict_get_cross (d : Dict) item bank k :
  dict_get (cross d item bank) k
  = if decide (k = item) then Some bank
    else if decide (k = "Farmer") then Some bank else dict_get d k.
Proof.
  unfold cross. destruct (decide (k = item)) as [->|Hne].
  - apply dict_get_set_eq.
  - rewrite dict_get_set_ne by done.
    destruct (decide (k = "Farmer")) as [->|HneF].
    + apply dict_get_set_eq.
    + by rewrite dict_get_set_ne.
Qed.

Lemma dict_get_set (d : Dict) k' v k :
  dict_get (dict_set d k' v) k = if decide (k = k') then Some v else dict_get d k.
Proof.
  destruct (decide (k = k')) as [->|Hne]; [apply dict_get_set_eq|].
  by apply dict_get_set_ne.
Qed.

(** What an accepted move is, on the dictionary. *)
Lemma move_accepted (d : Dict) item d' m :
  move d item = Done (Some (d', m)) →
  d' = cross d m.1 m.2 ∧ m.1 ∈ d.*1 ∧ "Farmer" ∈ d.*1 ∧
  dict_get d "Farmer" = Some (opposite m.2) ∧ dict_get d m.1 = Some (opposite m.2) ∧
  (truthy_item item = Some m.1 ∨ truthy_item item = None ∧ m.1 = "Farmer").
Proof.
  unfold move. destruct (truthy_item item) as [it|].
  - unfold dict_contains. case_bool_decide as Hin; [|done]. cbn [negb].
    destruct (dict_get d "Farmer") as [fb|] eqn:HF; [|done].
    destruct (dict_get d it) as [b|] eqn:Hi; [|done].
    case_bool_decide as Hb; [done|]. intros [= <- <-]. simpl.
    rewrite opposite_involutive. subst b.
    split; [done|]. split; [done|].
    split; [apply dict_get_is_Some; eauto|]. auto.
  - destruct (dict_get d "Farmer") as [fb|] eqn:HF; [|done].
    intros [= <- <-]. simpl. rewrite opposite_involutive.
    assert (HinF : "Farmer" ∈ d.*1) by (apply dict_get_is_Some; eauto).
    unfold cross. rewrite dict_set_twice. auto 10.
Qed.

(** X8: an accepted move takes the farmer and the item moved, and nothing
    else, to the other bank: the other entities stay where they are, the
    mapping keeps its keys, the history grows by the move, the move is
    counted, and the cache and every other object are untouched. *)
Theorem make_move_moves_nothing_else σ d h item σ' :
  live σ d h → make_move item σ = Ok true σ' →
  ∃ d' m,
    live σ' d' (h ++ [m]) ∧ d'.*1 = d.*1 ∧
    dict_get d "Farmer" = Some (opposite m.2) ∧ dict_get d' "Farmer" = Some m.2 ∧
    dict_get d m.1 = Some (opposite m.2) ∧ dict_get d' m.1 = Some m.2 ∧
    (∀ k, k ≠ "Farmer" → k ≠ m.1 → dict_get d' k = dict_get d k) ∧
    state (this σ') = state (this σ) ∧
    move_count (this σ') = move_count (this σ) + 1 ∧
    _cached_solutions (this σ') = _cached_solutions (this σ) ∧
    (∀ i, i ≠ positions (state (this σ)) → dicts σ' !! i = dicts σ !! i) ∧
    (∀ i, i ≠ history (state (this σ)) → lists σ' !! i = lists σ !! i).
Proof.
  intros Hlive Hmove.
  pose proof (make_move_move σ d h item Hlive) as Hm.
  destruct (move d item) as [[[d' m]|]|e|] eqn:Hpure;
    [|by rewrite Hm in Hmove|by rewrite Hm in Hmove|done].
  rewrite Hm in Hmove. injection Hmove as <-.
  apply move_accepted in Hpure as (-> & Hin & HinF & HF & Hi & _).
  exists (cross d m.1 m.2), m.
  split; [by eapply live_moved|]. split; [by apply cross_keys|].
  split; [done|]. split.
  { rewrite dict_get_cross. by repeat case_decide. }
  split; [done|]. split.
  { rewrite dict_get_cross. by rewrite decide_True. }
  split.
  { intros k HkF Hk. rewrite dict_get_cross. by rewrite !decide_False. }
  split; [done|]. split; [done|]. split; [done|].
  split; intros i Hi'; simpl; by rewrite list_lookup_insert_ne.
Qed.

Lemma make_move_moves_nothing_else_witness :
  live fresh initial_positions [] ∧
  make_move (Some "Chicken") fresh = Ok true chicken_across ∧
  ∃ d' m,
    live chicken_across d' ([] ++ [m]) ∧ d'.*1 = initial_positions.*1 ∧
    dict_get initial_positions "Farmer" = Some (opposite m.2) ∧
    dict_get d' "Farmer" = Some m.2 ∧
    dict_get initial_positions m.1 = Some (opposite m.2) ∧
    dict_get d' m.1 = Some m.2 ∧
    (∀ k, k ≠ "Farmer" → k ≠ m.1 → dict_get d' k = dict_get initial_positions k) ∧
    state (this chicken_across) = state (this fresh) ∧
    move_count (this chicken_across) = move_count (this fresh) + 1 ∧
    _cached_solutions (this chicken_across) = _cached_solutions (this fresh) ∧
    (∀ i, i ≠ positions (state (this fresh)) →
          dicts chicken_across !! i = dicts fresh !! i) ∧
    (∀ i, i ≠ history (state (this fresh)) →
          lists chicken_across !! i = lists fresh !! i).
Proof.
  split; [exact live_fresh|]. split; [reflexivity|].
  apply (make_move_moves_nothing_else fresh initial_positions [] (Some "Chicken")
           chicken_across); [exact live_fresh|reflexivity].
Defined.

(** Taking the same item back undoes a move, on the dictionary. *)
Lemma move_back (d : Dict) item d1 m1 :
  NoDup d.*1 → move d item = Done (Some (d1, m1)) →
  move d1 item = Done (Some (d, (m1.1, opposite m1.2))).
Proof.
  intros Hnd Hmove.
  pose proof (move_accepted d item d1 m1 Hmove) as (-> & Hin & HinF & HF & Hi & Hitem).
  assert (Hkeys : (cross d m1.1 m1.2).*1 = d.*1) by by apply cross_keys.
  assert (Hback : cross (cross d m1.1 m1.2) m1.1 (opposite m1.2) = d).
  { apply dict_ext.
    - rewrite cross_keys; by rewrite Hkeys.
    - rewrite cross_keys; by rewrite Hkeys.
    - intros k. rewrite !dict_get_cross. by repeat case_decide; subst. }
  unfold move. destruct Hitem as [->|[-> Hm]].
  - unfold dict_contains. rewrite bool_decide_eq_true_2 by by rewrite Hkeys.
    cbn [negb]. rewrite !dict_get_cross. rewrite (decide_True (P := m1.1 = m1.1)) by done.
    assert (HgF : (if decide ("Farmer" = m1.1) then Some m1.2
                   else if decide ("Farmer" = "Farmer") then Some m1.2
                        else dict_get d "Farmer") = Some m1.2)
      by (by repeat case_decide).
    rewrite HgF. rewrite bool_decide_eq_false_2 by (by intros H; apply H).
    by rewrite Hback.
  - rewrite Hm in *. rewrite dict_get_cross, decide_True by done.
    unfold cross in Hback. rewrite !dict_set_twice in Hback.
    unfold cross. rewrite dict_set_twice. by rewrite Hback.
Qed.

(** X9: making the same move twice brings everyone back: after an accepted
    [make_move(item)] a second [make_move(item)] is accepted too and restores
    the positions mapping; the history has grown by the move and its return,
    and two moves were counted. *)
Theorem make_move_twice_restores_positions σ d h item σ1 :
  live σ d h → NoDup d.*1 → make_move item σ = Ok true σ1 →
  ∃ σ2 m,
    make_move item σ1 = Ok true σ2 ∧
    live σ2 d (h ++ [m; (m.1, opposite m.2)]) ∧
    move_count (this σ2) = move_count (this σ) + 2.
Proof.
  intros Hlive Hnd Hmove.
  pose proof (make_move_move σ d h item Hlive) as Hm.
  destruct (move d item) as [[[d1 m1]|]|e|] eqn:Hpure;
    [|by rewrite Hm in Hmove|by rewrite Hm in Hmove|done].
  rewrite Hm in Hmove. injection Hmove as <-.
  pose proof (live_moved σ d h d1 (h ++ [m1]) Hlive) as Hlive1.
  pose proof (make_move_move _ d1 (h ++ [m1]) item Hlive1) as Hm2.
  rewrite (move_back d item d1 m1 Hnd Hpure) in Hm2.
  eexists _, m1. split; [exact Hm2|]. split.
  - rewrite <- app_assoc in *. by eapply live_moved.
  - simpl. lia.
Qed.

Lemma make_move_twice_restores_positions_witness :
  live fresh initial_positions [] ∧ NoDup initial_positions.*1 ∧
  make_move (Some "Chicken") fresh = Ok true chicken_across ∧
  ∃ σ2 m,
    make_move (Some "Chicken") chicken_across = Ok true σ2 ∧
    live σ2 initial_positions ([] ++ [m; (m.1, opposite m.2)]) ∧
    move_count (this σ2) = move_count (this fresh) + 2.
Proof.
  split; [exact live_fresh|]. split; [exact initial_NoDup|]. split; [reflexivity|].
  apply (make_move_twice_restores_positions fresh initial_positions []
           (Some "Chicken") chicken_across);
    [exact live_fresh|exact initial_NoDup|reflexivity].
Defined.

(** X10: on a positions mapping without ['Farmer'], [make_move] returns
    [False] for an item that is not in the mapping (that test comes first)
    and raises [KeyError('Farmer')] otherwise, also for [None]; in both cases
    nothing is changed. *)
Theorem make_move_without_farmer σ d h item :
  live σ d h → "Farmer" ∉ d.*1 →
  make_move item σ
  = match truthy_item item with
    | Some it =>
        if decide (it ∈ d.*1) then Raised (KeyError "Farmer") σ else Ok false σ
    | None => Raised (KeyError "Farmer") σ
    end.
Proof.
  intros Hlive HF. apply dict_get_None in HF.
  pose proof (make_move_move σ d h item Hlive) as Hm. unfold move in Hm.
  destruct (truthy_item item) as [it|].
  - unfold dict_contains in Hm. rewrite HF in Hm.
    destruct (decide (it ∈ d.*1)).
    + by rewrite bool_decide_eq_true_2 in Hm.
    + by rewrite bool_decide_eq_false_2 in Hm.
  - by rewrite HF in Hm.
Qed.

Lemma make_move_without_farmer_witness :
  live (mkStore (mkGame (mkGameState 0 0) 0 None) [[("Fox", LEFT)]] [[]])
       [("Fox", LEFT)] [] ∧
  ("Farmer" ∉ [("Fox", LEFT)].*1) ∧
  make_move (Some "Fox") (mkStore (mkGame (mkGameState 0 0) 0 None) [[("Fox", LEFT)]] [[]])
  = match truthy_item (Some "Fox") with
    | Some it =>
        if decide (it ∈ [("Fox", LEFT)].*1)
        then Raised (KeyError "Farmer")
               (mkStore (mkGame (mkGameState 0 0) 0 None) [[("Fox", LEFT)]] [[]])
        else Ok false (mkStore (mkGame (mkGameState 0 0) 0 None) [[("Fox", LEFT)]] [[]])
    | None =>
        Raised (KeyError "Farmer")
          (mkStore (mkGame (mkGameState 0 0) 0 None) [[("Fox", LEFT)]] [[]])
    end.
Proof.
  assert (H : "Farmer" ∉ [("Fox", LEFT)].*1).
  { apply (bool_decide_unpack _). by vm_compute. }
  split; [done|]. split; [exact H|].
  apply (make_move_without_farmer
           (mkStore (mkGame (mkGameState 0 0) 0 None) [[("Fox", LEFT)]] [[]])
           [("Fox", LEFT)] [] (Some "Fox")); [done|exact H].
Defined.
(** ** What a game keeps *)

Lemma move_with_farmer_is_done (d : Dict) item :
  "Farmer" ∈ d.*1 → ∃ o, move d item = Done o.
Proof.
  intros [fb HF]%dict_get_is_Some. unfold move. rewrite HF.
  destruct (truthy_item item) as [it|]; [|eauto].
  unfold dict_contains. case_bool_decide as Hin; cbn [negb]; [|eauto].
  destruct (proj2 (dict_get_is_Some d it) Hin) as [b ->].
  case_bool_decide; eauto.
Qed.

Lemma consistent_has_farmer σ d h :
  live σ d h → consistent σ → "Farmer" ∈ d.*1.
Proof.
  intros [Hd Hh] (d' & h' & [Hd' Hh'] & Hkeys & HF & _).
  rewrite Hd in Hd'. injection Hd' as <-. apply dict_get_is_Some. eauto.
Qed.

Lemma make_move_keeps_consistent item σ :
  consistent σ → consistent (after (make_move item) σ).
Proof.
  intros (d & h & Hlive & Hkeys & HF & Hcount). unfold after.
  pose proof (make_move_move σ d h item Hlive) as Hm.
  destruct (move d item) as [[[d' m]|]|e|] eqn:Hpure; [| | |done]; rewrite Hm.
  - apply move_accepted in Hpure as (-> & Hin & HinF & HF' & Hi & _).
    exists (cross d m.1 m.2), (h ++ [m]).
    split; [by eapply live_moved|]. split; [by rewrite cross_keys|].
    split.
    + unfold farmer_side. rewrite last_snoc, dict_get_cross. by repeat case_decide.
    + simpl. rewrite length_app, Hcount. done.
  - by exists d, h.
  - by exists d, h.
Qed.

Lemma solve_keeps_consistent set_order σ :
  consistent σ → consistent (after (solve set_order) σ).
Proof.
  intros (d & h & Hlive & Hkeys & HF & Hcount). unfold after.
  assert (HinF : "Farmer" ∈ d.*1) by (apply dict_get_is_Some; eauto).
  destruct (solve_returns set_order σ d h Hlive HinF) as (r & σ1 & c & -> & Hext).
  exists d, h. split; [by apply live_with_cache, (extends_live σ)|].
  split; [done|]. split; [done|].
  destruct Hext as (Hthis & _). simpl. by rewrite Hthis.
Qed.

(** X11: the invariant of a game.  In every store a program reaches by
    making a game and calling [make_move] and [solve] on it, in any order and
    with any arguments, the positions mapping has the four entities of
    [__init__], the farmer is on the bank the last history entry names (the
    left bank when the history is empty), and [move_count] is the length of
    the history; there neither [make_move] nor [solve] raises. *)
Theorem reachable_games_are_consistent σ :
  reachable σ →
  consistent σ ∧
  (∀ item, ∃ b σ', make_move item σ = Ok b σ') ∧
  (∀ set_order, ∃ r σ', solve set_order σ = Ok r σ').
Proof.
  intros Hreach.
  assert (Hc : consistent σ).
  { induction Hreach as [σ0|item σ _ IH|f σ _ IH].
    - exists initial_positions, []. split; [apply live_new_game|]. done.
    - by apply make_move_keeps_consistent.
    - by apply solve_keeps_consistent. }
  split; [done|]. destruct Hc as (d & h & Hlive & Hkeys & HF & Hcount).
  assert (HinF : "Farmer" ∈ d.*1) by (apply dict_get_is_Some; eauto).
  split.
  - intros item. pose proof (make_move_move σ d h item Hlive) as Hm.
    destruct (move_with_farmer_is_done d item HinF) as [[[d' m]|] Ho];
      rewrite Ho in Hm; eauto.
  - intros f. destruct (solve_returns f σ d h Hlive HinF) as (r & σ1 & c & -> & _).
    eauto.
Qed.

Lemma reachable_games_are_consistent_witness :
  reachable chicken_across ∧
  consistent chicken_across ∧
  (∀ item, ∃ b σ', make_move item chicken_across = Ok b σ') ∧
  (∀ set_order, ∃ r σ', solve set_order chicken_across = Ok r σ').
Proof.
  assert (H : reachable chicken_across).
  { exact (reach_move (Some "Chicken") (new_game empty_store) (reach_init empty_store)). }
  split; [exact H|].
  apply (reachable_games_are_consistent chicken_across H).
Defined.

(** ** The cache of [solve] *)

(** X12: an uncached [solve] caches what it found: when it returns a
    non-empty list, [_cached_solutions] becomes the set of the moves of that
    list; when it returns [None] or an empty list (a goal configuration with
    no history), the cache is left as it was. *)
Theorem uncached_solve_caches_its_result set_order σ d h :
  live σ d h → no_cache σ → "Farmer" ∈ d.*1 →
  ∃ r σ',
    solve set_order σ = Ok r σ' ∧
    match r with
    | Some ref =>
        ∃ l, lists σ' !! ref = Some l ∧
          _cached_solutions (this σ')
          = if bool_decide (l ≠ []) then Some (list_to_set l)
            else _cached_solutions (this σ)
    | None => _cached_solutions (this σ') = _cached_solutions (this σ)
    end.
Proof.
  intros Hlive Hc HF. rewrite solve_no_cache by done.
  pose proof (solve_search_solved (search_bound σ) σ d h Hlive) as Hsol.
  rewrite (search_bound_live σ d h Hlive) in *.
  destruct (search_finishes d h HF) as (result & v' & Hs & _).
  rewrite Hs in Hsol. destruct result as [l|]; simpl in Hsol.
  - destruct Hsol as (r & σ1 & Hext & Hr & ->). eexists (Some r), _.
    split; [done|]. exists l. destruct Hext as (Hthis & _).
    destruct (bool_decide (l ≠ [])); [done|]. by rewrite Hthis.
  - destruct Hsol as (σ1 & Hext & ->). exists None, σ1. split; [done|].
    destruct Hext as (-> & _). done.
Qed.

Lemma uncached_solve_caches_its_result_witness :
  live fresh initial_positions [] ∧ no_cache fresh ∧ "Farmer" ∈ initial_positions.*1 ∧
  ∃ r σ',
    solve elements fresh = Ok r σ' ∧
    match r with
    | Some ref =>
        ∃ l, lists σ' !! ref = Some l ∧
          _cached_solutions (this σ')
          = if bool_decide (l ≠ []) then Some (list_to_set l)
            else _cached_solutions (this fresh)
    | None => _cached_solutions (this σ') = _cached_solutions (this fresh)
    end.
Proof.
  split; [exact live_fresh|]. split; [exact no_cache_fresh|].
  split; [exact initial_has_farmer|].
  apply (uncached_solve_caches_its_result elements fresh initial_positions []);
    [exact live_fresh|exact no_cache_fresh|exact initial_has_farmer].
Defined.

(** X13: once a solution is cached [solve] does not look at the game: it
    returns a new list with the cached moves, each once, and changes nothing
    else, whatever the configuration and the history are. *)
Theorem cached_solve_ignores_the_game set_order σ s :
  is_set_order set_order → _cached_solutions (this σ) = Some s → s ≠ ∅ →
  ∃ r l σ',
    solve set_order σ = Ok (Some r) σ' ∧
    lists σ !! r = None ∧ lists σ' !! r = Some l ∧
    NoDup l ∧ (∀ m, m ∈ l ↔ m ∈ s) ∧ length l = size s ∧
    this σ' = this σ ∧ dicts σ' = dicts σ ∧ lists σ `prefix_of` lists σ'.
Proof.
  intros Hf Hs Hne.
  exists (length (lists σ)), (set_order s),
    (mkStore (this σ) (dicts σ) (lists σ ++ [set_order s])).
  split; [by apply solve_cached|].
  split; [by apply lookup_ge_None|]. split; [apply lookup_snoc|].
  split; [rewrite (Hf s); apply NoDup_elements|].
  split; [intros m; rewrite (Hf s); apply elem_of_elements|].
  split; [by rewrite (Hf s)|].
  split; [done|]. split; [done|]. by apply prefix_app_r.
Qed.

Lemma cached_solve_ignores_the_game_witness :
  is_set_order elements ∧
  _cached_solutions (this (with_cache fresh (Some (list_to_set classic_solution))))
  = Some (list_to_set classic_solution) ∧
  (list_to_set classic_solution : gset Move) ≠ ∅ ∧
  ∃ r l σ',
    solve elements (with_cache fresh (Some (list_to_set classic_solution)))
    = Ok (Some r) σ' ∧
    lists (with_cache fresh (Some (list_to_set classic_solution))) !! r = None ∧
    lists σ' !! r = Some l ∧
    NoDup l ∧ (∀ m, m ∈ l ↔ m ∈ (list_to_set classic_solution : gset Move)) ∧
    length l = size (list_to_set classic_solution : gset Move) ∧
    this σ' = this (with_cache fresh (Some (list_to_set classic_solution))) ∧
    dicts σ' = dicts (with_cache fresh (Some (list_to_set classic_solution))) ∧
    lists (with_cache fresh (Some (list_to_set classic_solution)))
      `prefix_of` lists σ'.
Proof.
  assert (H : is_set_order elements) by (intros s; reflexivity).
  split; [exact H|]. split; [reflexivity|]. split; [exact cached_moves_not_empty|].
  apply (cached_solve_ignores_the_game elements
           (with_cache fresh (Some (list_to_set classic_solution)))
           (list_to_set classic_solution) H eq_refl cached_moves_not_empty).
Defined.

(** X14: on a goal configuration [solve] hands out the history list itself,
    not a copy: a move made afterwards changes the list that was returned. *)
Theorem solve_at_goal_aliases_history set_order σ d h :
  live σ d h → no_cache σ → all_right d = true → "Farmer" ∈ d.*1 →
  ∃ σ1 σ2,
    solve set_order σ = Ok (Some (history (state (this σ)))) σ1 ∧
    lists σ1 !! history (state (this σ)) = Some h ∧
    make_move None σ1 = Ok true σ2 ∧
    lists σ2 !! history (state (this σ)) = Some (h ++ [("Farmer", LEFT)]).
Proof.
  intros Hlive Hc Hgoal [fb HF]%dict_get_is_Some.
  assert (fb = RIGHT) as ->.
  { apply dict_get_elem in HF. by apply (proj1 (all_right_iff d) Hgoal) in HF. }
  rewrite solve_no_cache by done. unfold search_bound.
  rewrite (solve_search_goal _ σ d h Hlive Hgoal).
  set (σ1 := if bool_decide (h ≠ []) then _ else σ).
  assert (Hlive1 : live σ1 d h) by (unfold σ1; by destruct (bool_decide _)).
  assert (Hstate : state (this σ1) = state (this σ))
    by (unfold σ1; by destruct (bool_decide _)).
  exists σ1, (moved σ1 (dict_set d "Farmer" LEFT) (h ++ [("Farmer", LEFT)])).
  split; [done|]. split; [rewrite <- Hstate; apply Hlive1|].
  split; [by apply (make_move_alone σ1 d h None RIGHT)|].
  rewrite <- Hstate. by eapply live_moved.
Qed.

Lemma solve_at_goal_aliases_history_witness :
  live won goal_positions classic_solution ∧ no_cache won ∧
  all_right goal_positions = true ∧ "Farmer" ∈ goal_positions.*1 ∧
  ∃ σ1 σ2,
    solve elements won = Ok (Some (history (state (this won)))) σ1 ∧
    lists σ1 !! history (state (this won)) = Some classic_solution ∧
    make_move None σ1 = Ok true σ2 ∧
    lists σ2 !! history (state (this won))
    = Some (classic_solution ++ [("Farmer", LEFT)]).
Proof.
  split; [exact live_won|]. split; [exact no_cache_won|]. split; [reflexivity|].
  split; [exact initial_has_farmer|].
  apply (solve_at_goal_aliases_history elements won goal_positions classic_solution);
    [exact live_won|exact no_cache_won|reflexivity|exact initial_has_farmer].
Defined.
(** ** The number of moves of a solution *)

Lemma path_parity ms : ∀ (d : Dict) bank,
  path d ms → dict_get d "Farmer" = Some bank →
  Nat.even (length ms) = bool_decide (bank = RIGHT).
Proof.
  induction ms as [|[item b] ms IH]; intros d bank Hpath HF.
  - simpl in Hpath. apply dict_get_elem in HF.
    apply (proj1 (all_right_iff d) Hpath) in HF. by subst.
  - destruct Hpath as (HF' & _ & _ & Hpath).
    rewrite HF' in HF. injection HF as <-.
    cbn [length]. rewrite Nat.even_succ, <- Nat.negb_even.
    rewrite (IH _ b Hpath).
    + by destruct b.
    + rewrite dict_get_cross. by repeat case_decide.
Qed.

(** X15: the farmer changes bank with every move and ends on the right bank,
    so the new moves of a solution (those after the recorded history) are odd
    in number when the farmer starts on the left bank and even in number when
    he starts on the right bank. *)
Theorem solution_length_parity set_order σ d h bank r σ' :
  live σ d h → NoDup d.*1 → no_cache σ → dict_get d "Farmer" = Some bank →
  solve set_order σ = Ok (Some r) σ' →
  ∃ ms,
    lists σ' !! r = Some (h ++ ms) ∧
    Nat.even (length ms) = bool_decide (bank = RIGHT).
Proof.
  intros Hlive Hnd Hc HF Hsolve.
  destruct (solve_no_cache_sound set_order σ d h r σ' Hlive Hnd Hc Hsolve)
    as (ms & Hr & Hpath & _).
  exists ms. split; [done|]. by apply (path_parity ms d).
Qed.

Lemma solution_length_parity_witness :
  live fresh initial_positions [] ∧ NoDup initial_positions.*1 ∧ no_cache fresh ∧
  dict_get initial_positions "Farmer" = Some LEFT ∧
  solve elements fresh = Ok (Some 15) (after (solve elements) fresh) ∧
  ∃ ms,
    lists (after (solve elements) fresh) !! 15 = Some ([] ++ ms) ∧
    Nat.even (length ms) = bool_decide (LEFT = RIGHT).
Proof.
  split; [exact live_fresh|]. split; [exact initial_NoDup|].
  split; [exact no_cache_fresh|]. split; [reflexivity|].
  split; [exact solve_fresh_computed|].
  apply (solution_length_parity elements fresh initial_positions [] LEFT 15
           (after (solve elements) fresh));
    [exact live_fresh|exact initial_NoDup|exact no_cache_fresh|reflexivity
    |exact solve_fresh_computed].
Defined.

(** ** [solve] without a farmer *)

(** X16: on a positions mapping without ['Farmer'] that is not the goal, an
    uncached [solve] raises [KeyError('Farmer')] before it has copied or
    changed anything. *)
Theorem solve_without_farmer set_order σ d h :
  live σ d h → no_cache σ → "Farmer" ∉ d.*1 → all_right d = false →
  solve set_order σ = Raised (KeyError "Farmer") σ.
Proof.
  intros Hlive Hc HF Hgoal. apply dict_get_None in HF.
  rewrite solve_no_cache by done. unfold search_bound, solve_search, get_self.
  unfold bind at 1. cbn [dfs]. destruct Hlive as [Hd Hh].
  rewrite (bind_bind_Ok _ _ _ _ _ _ (read_dict_Ok _ _ _ Hd)). rewrite Hgoal.
  rewrite decide_False by set_solver.
  by rewrite (bind_bind_Raised _ _ _ _ _ _ (getitem_Raised _ _ _ _ Hd HF)).
Qed.

Lemma solve_without_farmer_witness :
  live (mkStore (mkGame (mkGameState 0 0) 0 None) [[("Fox", LEFT)]] [[]])
       [("Fox", LEFT)] [] ∧
  no_cache (mkStore (mkGame (mkGameState 0 0) 0 None) [[("Fox", LEFT)]] [[]]) ∧
  ("Farmer" ∉ [("Fox", LEFT)].*1) ∧ all_right [("Fox", LEFT)] = false ∧
  solve elements (mkStore (mkGame (mkGameState 0 0) 0 None) [[("Fox", LEFT)]] [[]])
  = Raised (KeyError "Farmer")
      (mkStore (mkGame (mkGameState 0 0) 0 None) [[("Fox", LEFT)]] [[]]).
Proof.
  assert (H : "Farmer" ∉ ([("Fox", LEFT)].*1)).
  { apply (bool_decide_unpack _). by vm_compute. }
  assert (Hc : no_cache (mkStore (mkGame (mkGameState 0 0) 0 None) [[("Fox", LEFT)]] [[]]))
    by (by intros s [=]).
  split; [done|]. split; [exact Hc|]. split; [exact H|]. split; [reflexivity|].
  apply (solve_without_farmer elements
           (mkStore (mkGame (mkGameState 0 0) 0 None) [[("Fox", LEFT)]] [[]])
           [("Fox", LEFT)] []); [done|exact Hc|exact H|reflexivity].
Defined.

(** ** The search is complete *)

Lemma state_key_inj (x y : Dict) :
  x.*1 = y.*1 → NoDup x.*1 → state_key x = state_key y → x = y.
Proof.
  intros Hkeys Hnd Hkey. apply dict_ext; [done|done|].
  assert (Hin : ∀ k b, (k, b) ∈ x ↔ (k, b) ∈ y).
  { intros k b. unfold state_key in Hkey.
    rewrite <- (elem_of_list_to_set (C := Key) (k, b) x), Hkey.
    apply elem_of_list_to_set. }
  intros k. destruct (dict_get x k) as [b|] eqn:Hx.
  - symmetry. apply elem_dict_get; [by rewrite <- Hkeys|].
    by apply Hin, dict_get_elem.
  - symmetry. apply dict_get_None. rewrite <- Hkeys. by apply dict_get_None.
Qed.

Lemma explored_refl (ks : list string) (v : Visited) : explored ks v v.
Proof. by intros x _ Hin Hout. Qed.

Lemma explored_trans (ks : list string) (v1 v2 v3 : Visited) :
  v2 ⊆ v3 → explored ks v1 v2 → explored ks v2 v3 → explored ks v1 v3.
Proof.
  intros Hsub H12 H23 x Hks Hin Hout.
  destruct (decide (state_key x ∈ v2)) as [Hin2|Hout2].
  - destruct (H12 x Hks Hin2 Hout) as [Hg Hs]. split; [done|].
    intros y Hy. apply Hsub. by apply Hs.
  - by apply H23.
Qed.

(** A falsy result of a call with a history that is not empty is [None]. *)
Lemma falsy_is_None (h : list Move) m (result : option (list Move)) :
  (∀ l, result = Some l → h ++ [m] `prefix_of` l) →
  nonempty result = false → result = None.
Proof.
  intros Hpre Hfalsy. destruct result as [[|x l]|]; [|done|done].
  destruct (Hpre [] eq_refl) as [k Hk]. by destruct h.
Qed.

Section SearchComplete.

Variable prec : Dict → list Move → Visited → res (option (list Move) * Visited).
Variable ks : list string.

Hypothesis ks_NoDup : NoDup ks.
Hypothesis ks_farmer : "Farmer" ∈ ks.

Hypothesis prec_none : ∀ d h v v',
  d.*1 = ks → prec d h v = Done (None, v') → exhausted ks d v v'.

Hypothesis prec_prefix : ∀ d h v l v',
  prec d h v = Done (Some l, v') → h `prefix_of` l.

Lemma search_items_none d h fb items : ∀ v v',
  d.*1 = ks → (∀ item, item ∈ items → item ∈ ks) →
  search_items prec d h fb items v = Done (None, v') →
  v ⊆ v' ∧ explored ks v v' ∧
  ∀ item, item ∈ items →
    valid_positions (cross d item (opposite fb)) = Some true →
    state_key (cross d item (opposite fb)) ∈ v'.
Proof.
  intros v v' Hks. revert v.
  induction items as [|item items IH]; intros v Hitems; simpl.
  { intros [= <-]. split; [done|]. split; [apply explored_refl|].
    by intros ? ?%elem_of_nil. }
  assert (Hrest : ∀ i, i ∈ items → i ∈ ks).
  { intros i Hi. by apply Hitems, list_elem_of_further. }
  assert (Hkeys : (cross d item (opposite fb)).*1 = ks).
  { rewrite cross_keys; rewrite Hks; [done|done|]. apply Hitems, list_elem_of_here. }
  destruct (valid_positions (cross d item (opposite fb))) as [[|]|] eqn:Hvalid;
    [| |done].
  - destruct (prec _ _ v) as [[result v1]|e|] eqn:Hprec; [|done|done].
    destruct (nonempty result) eqn:Hfalsy; [by intros [= -> ->]|].
    assert (result = None) as ->.
    { eapply falsy_is_None; [|done]. intros l ->. by eapply prec_prefix. }
    destruct (prec_none _ _ _ _ Hkeys Hprec) as (Hsub1 & _ & Hkey1 & Hexp1).
    intros Hsearch. destruct (IH v1 Hrest Hsearch) as (Hsub2 & Hexp2 & Hall).
    split; [set_solver|]. split; [by eapply explored_trans|].
    intros i [->|Hi]%elem_of_cons Hv; [by apply Hsub2|by apply Hall].
  - intros Hsearch. destruct (IH v Hrest Hsearch) as (Hsub2 & Hexp2 & Hall).
    split; [done|]. split; [done|].
    intros i [->|Hi]%elem_of_cons Hv; [congruence|by apply Hall].
Qed.

End SearchComplete.

Lemma search_none fuel : ∀ d h v v',
  NoDup d.*1 → "Farmer" ∈ d.*1 →
  search fuel d h v = Done (None, v') → exhausted d.*1 d v v'.
Proof.
  induction fuel as [|fuel IH]; intros d h v v' Hnd HF; [done|].
  cbn [search].
  destruct (all_right d) eqn:Hgoal; [done|].
  destruct (decide (state_key d ∈ v)) as [Hin|Hnew].
  { intros [= <-]. split; [done|]. split; [done|]. split; [done|].
    apply explored_refl. }
  destruct (proj2 (dict_get_is_Some d "Farmer") HF) as [fb HFb]. rewrite HFb.
  assert (Hkeys1 : (dict_set d "Farmer" (opposite fb)).*1 = d.*1)
    by by apply dict_set_keys.
  assert (Hrec : ∀ d' h' v0 v1, d'.*1 = d.*1 →
            search fuel d' h' v0 = Done (None, v1) → exhausted d.*1 d' v0 v1).
  { intros d' h' v0 v1 Hk Hs. rewrite <- Hk. apply (IH d' h'); by rewrite ?Hk. }
  destruct (valid_positions (dict_set d "Farmer" (opposite fb))) as [valid|] eqn:Hvalid;
    [|done].
  destruct (if valid then _ else _) as [[result v1]|e|] eqn:Hfirst; [|done|done].
  destruct (nonempty result) eqn:Hfalsy; [by intros [= -> ->]|].
  intros Hitems.
  destruct (search_items_none (search fuel) d.*1 Hnd HF Hrec
              (λ d h v l v', search_prefix fuel d h v l v')
              d h fb (unattended d fb) v1 v' eq_refl) as (Hsub2 & Hexp2 & Hall);
    [intros item [Hi _]%unattended_elem; by eapply elem_keys|done|].
  assert (Hone : v ∪ {[state_key d]} ⊆ v1 ∧ explored d.*1 (v ∪ {[state_key d]}) v1 ∧
                 (valid = true → state_key (dict_set d "Farmer" (opposite fb)) ∈ v1)).
  { destruct valid.
    - assert (result = None) as ->.
      { eapply falsy_is_None; [|done]. intros l ->. by eapply search_prefix. }
      destruct (Hrec _ _ _ _ Hkeys1 Hfirst) as (? & _ & ? & ?). done.
    - injection Hfirst as <- <-. split; [done|]. split; [apply explored_refl|done]. }
  destruct Hone as (Hsub1 & Hexp1 & Hkey1).
  split; [set_solver|]. split; [done|]. split; [set_solver|].
  intros x Hks Hin Hout.
  destruct (decide (state_key x = state_key d)) as [Heq|Hne].
  - apply state_key_inj in Heq; [|done|by rewrite Hks]. subst x.
    split; [done|]. intros y (item & bank & HFy & Hi & Hv & ->).
    rewrite HFb in HFy. injection HFy as ->. rewrite opposite_involutive in *.
    destruct (decide (item = "Farmer")) as [->|HneF].
    + unfold cross in *. rewrite dict_set_twice in *.
      rewrite Hvalid in Hv. injection Hv as ->. apply Hsub2. by apply Hkey1.
    + apply Hall; [|done]. apply unattended_elem_iff.
      split; [by apply dict_get_elem|done].
  - apply (explored_trans d.*1 (v ∪ {[state_key d]}) v1 v' Hsub2 Hexp1 Hexp2);
      [exact Hks|exact Hin|].
    intros [Hv|Hd]%elem_of_union; [by apply Hout|].
    by apply elem_of_singleton in Hd.
Qed.

(** From an explored set no path leads to the goal. *)
Lemma explored_no_path (ks : list string) (v' : Visited) :
  "Farmer" ∈ ks → explored ks ∅ v' →
  ∀ ms (x : Dict), x.*1 = ks → state_key x ∈ v' → ¬ path x ms.
Proof.
  intros HF Hexp ms. induction ms as [|[item b] ms IH]; intros x Hks Hin Hpath.
  - destruct (Hexp x Hks Hin) as [Hg _]; [set_solver|]. simpl in Hpath. congruence.
  - destruct Hpath as (HFx & Hi & Hv & Hpath).
    destruct (Hexp x Hks Hin) as [_ Hs]; [set_solver|].
    apply (IH (cross x item b)); [| |done].
    + rewrite cross_keys; [done|by rewrite Hks|]. apply dict_get_is_Some. eauto.
    + apply Hs. by exists item, b.
Qed.

Lemma search_complete fuel (d : Dict) h v' :
  NoDup d.*1 → "Farmer" ∈ d.*1 →
  search fuel d h ∅ = Done (None, v') → ∀ ms, ¬ path d ms.
Proof.
  intros Hnd HF Hs ms.
  destruct (search_none fuel d h ∅ v' Hnd HF Hs) as (_ & _ & Hkey & Hexp).
  by apply (explored_no_path d.*1 v' HF Hexp ms d).
Qed.
(** What a successful [replay] has done on the dictionary. *)
Lemma replay_gives_path ms : ∀ σ d h σ',
  live σ d h → replay ms σ = Ok true σ' →
  ∃ d' h', live σ' d' h' ∧ (all_right d' = true → ∃ ms', path d ms').
Proof.
  induction ms as [|m ms IH]; intros σ d h σ' Hlive; cbn [replay].
  { intros [= <-]. exists d, h. split; [done|]. intros Hg. by exists []. }
  pose proof (make_move_move σ d h (item_of m) Hlive) as Hmove.
  destruct (move d (item_of m)) as [[[d1 m1]|]|e|] eqn:Hpure; [| | |done].
  - rewrite (bind_Ok _ _ _ _ _ Hmove).
    pose proof (live_moved σ d h d1 (h ++ [m1]) Hlive) as Hlive1.
    pose proof (is_valid_state_eq _ _ (proj1 Hlive1)) as Hvalid.
    destruct (valid_positions d1) as [[|]|] eqn:Hv.
    + rewrite (bind_Ok _ _ _ _ _ Hvalid). intros Hrep.
      destruct (IH _ _ _ _ Hlive1 Hrep) as (d' & h' & Hlive' & Hpath).
      exists d', h'. split; [done|]. intros Hg.
      destruct (Hpath Hg) as [ms' Hms'].
      apply move_accepted in Hpure as (-> & _ & _ & HF & Hi & _).
      exists (m1 :: ms'). destruct m1 as [item b]. by repeat split.
    + by rewrite (bind_Ok _ _ _ _ _ Hvalid).
    + by rewrite (bind_Raised _ _ _ _ _ Hvalid).
  - by rewrite (bind_Ok _ _ _ _ _ Hmove).
  - by rewrite (bind_Raised _ _ _ _ _ Hmove).
Qed.

Lemma winnable_path σ d h : live σ d h → winnable σ → ∃ ms, path d ms.
Proof.
  intros Hlive (ms & σ' & Hrep & Hwon).
  destruct (replay_gives_path ms σ d h σ' Hlive Hrep) as (d' & h' & Hlive' & Hpath).
  apply Hpath. rewrite (is_won_eq σ' d' (proj1 Hlive')) in Hwon. by injection Hwon.
Qed.

Lemma path_winnable σ d h ms :
  live σ d h → NoDup d.*1 → "" ∉ d.*1 → path d ms → winnable σ.
Proof.
  intros Hlive Hnd Hempty Hpath.
  destruct (path_replay ms σ d h Hlive Hnd Hempty Hpath)
    as (σ' & d' & Hrep & Hlive' & Hwon & _).
  exists ms, σ'. split; [done|].
  by rewrite (is_won_eq σ' d' (proj1 Hlive')), Hwon.
Qed.

Lemma solve_iff_winnable set_order σ d h :
  live σ d h → NoDup d.*1 → "" ∉ d.*1 → "Farmer" ∈ d.*1 → no_cache σ →
  ((∃ r σ', solve set_order σ = Ok (Some r) σ') ↔ winnable σ) ∧
  ((∃ σ', solve set_order σ = Ok None σ') ↔ ¬ winnable σ).
Proof.
  intros Hlive Hnd Hempty HF Hc.
  assert (Hsound : (∃ r σ', solve set_order σ = Ok (Some r) σ') → winnable σ).
  { intros (r & σ' & Hsolve).
    destruct (solve_no_cache_sound set_order σ d h r σ' Hlive Hnd Hc Hsolve)
      as (ms & _ & Hpath & _).
    by apply (path_winnable σ d h ms). }
  assert (Hnone : (∃ σ', solve set_order σ = Ok None σ') → ¬ winnable σ).
  { intros [σ' Hsolve] [ms Hpath]%(winnable_path σ d h Hlive).
    rewrite solve_no_cache in Hsolve by done.
    pose proof (solve_search_solved (search_bound σ) σ d h Hlive) as Hsol.
    destruct (search _ d h ∅) as [[[l|] v]|e|] eqn:Hs; simpl in Hsol.
    - destruct Hsol as (r0 & σ1 & _ & _ & Heq). by rewrite Heq in Hsolve.
    - by apply (search_complete _ d h v Hnd HF Hs ms).
    - destruct Hsol as (σ1 & _ & Heq). by rewrite Heq in Hsolve.
    - by rewrite Hsol in Hsolve. }
  destruct (solve_returns set_order σ d h Hlive HF) as (r & σ1 & c & Hsolve & _).
  split; split; [done| |done|].
  - intros Hwin. destruct r as [r|]; [eauto|]. exfalso. apply Hnone; eauto.
  - intros Hno. destruct r as [r|]; [|eauto]. exfalso. apply Hno, Hsound. eauto.
Qed.

(** X17: the search is complete.  An uncached [solve] returns a sequence
    exactly when the game can be won from the present configuration, that is
    when some sequence of moves is accepted by [make_move] one after the
    other, leaves a state [is_valid_state] accepts each time, and ends with
    [is_won]; it returns [None] exactly when no such sequence exists. *)
Theorem solve_finds_a_solution_iff_one_exists set_order σ d h :
  live σ d h → NoDup d.*1 → "" ∉ d.*1 → "Farmer" ∈ d.*1 → no_cache σ →
  ((∃ r σ', solve set_order σ = Ok (Some r) σ') ↔ winnable σ) ∧
  ((∃ σ', solve set_order σ = Ok None σ') ↔ ¬ winnable σ).
Proof.
  apply solve_iff_winnable.
Qed.

Lemma solve_finds_a_solution_iff_one_exists_witness :
  live fresh initial_positions [] ∧ NoDup initial_positions.*1 ∧
  ("" ∉ initial_positions.*1) ∧ "Farmer" ∈ initial_positions.*1 ∧ no_cache fresh ∧
  ((∃ r σ', solve elements fresh = Ok (Some r) σ') ↔ winnable fresh) ∧
  ((∃ σ', solve elements fresh = Ok None σ') ↔ ¬ winnable fresh).
Proof.
  split; [exact live_fresh|]. split; [exact initial_NoDup|].
  split; [exact initial_no_empty_name|]. split; [exact initial_has_farmer|].
  split; [exact no_cache_fresh|].
  apply (solve_finds_a_solution_iff_one_exists elements fresh initial_positions []);
    [exact live_fresh|exact initial_NoDup|exact initial_no_empty_name
    |exact initial_has_farmer|exact no_cache_fresh].
Defined.

(** ** The hint *)

Lemma hint_of_solution set_order σ r σ' l h :
  solve set_order σ = Ok (Some r) σ' →
  lists σ' !! r = Some l → lists σ' !! history (state (this σ')) = Some h →
  hint set_order σ
  = Ok (if bool_decide (l ≠ [])
        then match l !! length h with
             | Some next_move => Suggest next_move
             | None => IndexError
             end
        else NoHint) σ'.
Proof.
  intros Hsolve Hl Hh. unfold hint.
  rewrite (bind_Ok _ _ _ _ _ Hsolve).
  assert (Ht : truthy (Some r) σ' = Ok (nonempty (Some l)) σ').
  { apply truthy_refines. by exists r. }
  rewrite (bind_Ok _ _ _ _ _ Ht).
  destruct l as [|m l]; [done|]. cbn [nonempty].
  rewrite bool_decide_eq_true_2 by done.
  rewrite (bind_Ok _ _ _ _ _ (read_list_Ok _ _ _ Hl)).
  unfold get_self at 1, bind at 1.
  rewrite (bind_Ok _ _ _ _ _ (read_list_Ok _ _ _ Hh)).
  by destruct ((m :: l) !! length h).
Qed.

(** X18: the first hint is a good move.  On a game that is not won and has no
    cached solution, [hint] names a move whenever the game can be won; the
    move it names is accepted by [make_move] and leaves a valid state, and it
    is the move [make_move] then records.  It names none only when the game
    cannot be won, and the subscript does not fail. *)
Theorem first_hint_is_a_legal_move set_order σ d h :
  live σ d h → NoDup d.*1 → "" ∉ d.*1 → "Farmer" ∈ d.*1 → no_cache σ →
  all_right d = false →
  ∃ result σ',
    hint set_order σ = Ok result σ' ∧
    match result with
    | Suggest m =>
        winnable σ ∧
        ∃ σ'' d'',
          make_move (item_of m) σ' = Ok true σ'' ∧
          is_valid_state σ'' = Ok true σ'' ∧ live σ'' d'' (h ++ [m])
    | NoHint => ¬ winnable σ
    | IndexError => False
    end.
Proof.
  intros Hlive Hnd Hempty HF Hc Hgoal.
  destruct (solve_iff_winnable set_order σ d h
              Hlive Hnd Hempty HF Hc) as [Hsome Hnone].
  destruct (solve_returns set_order σ d h Hlive HF) as (r & σ1 & c & Hsolve & _).
  destruct r as [r|].
  - destruct (solve_no_cache_sound set_order σ d h r _ Hlive Hnd Hc Hsolve)
      as (ms & Hr & Hpath & Hlive').
    destruct ms as [|[item b] ms]; [simpl in Hpath; congruence|].
    rewrite (hint_of_solution set_order σ r _ _ h Hsolve Hr (proj2 Hlive')).
    rewrite bool_decide_eq_true_2 by (by destruct h).
    rewrite lookup_app_r, Nat.sub_diag by lia. cbn [lookup list_lookup].
    eexists _, _. split; [done|]. split; [apply Hsome; eauto|].
    destruct Hpath as (HFd & Hi & Hvalid & _).
    assert (Hmove : make_move (item_of (item, b)) (with_cache σ1 c)
                    = Ok true (moved (with_cache σ1 c) (cross d item b)
                                     (h ++ [(item, b)]))).
    { unfold item_of. cbn [fst]. destruct (decide (item = "Farmer")) as [->|Hne].
      - rewrite (make_move_alone _ d h None (opposite b) Hlive' eq_refl HFd).
        unfold cross. by rewrite opposite_involutive, dict_set_twice.
      - rewrite (make_move_with _ d h item (opposite b) Hlive'); [ | |done|done].
        + by rewrite opposite_involutive.
        + intros ->. apply Hempty. apply dict_get_is_Some. eauto. }
    pose proof (live_moved _ d h (cross d item b) (h ++ [(item, b)]) Hlive') as Hl2.
    eexists _, _. split; [exact Hmove|]. split; [|exact Hl2].
    by rewrite (is_valid_state_eq _ _ (proj1 Hl2)), Hvalid.
  - unfold hint. rewrite (bind_Ok _ _ _ _ _ Hsolve).
    eexists NoHint, _. split; [done|]. apply Hnone. eauto.
Qed.

Lemma first_hint_is_a_legal_move_witness :
  live fresh initial_positions [] ∧ NoDup initial_positions.*1 ∧
  ("" ∉ initial_positions.*1) ∧ "Farmer" ∈ initial_positions.*1 ∧ no_cache fresh ∧
  all_right initial_positions = false ∧
  ∃ result σ',
    hint elements fresh = Ok result σ' ∧
    match result with
    | Suggest m =>
        winnable fresh ∧
        ∃ σ'' d'',
          make_move (item_of m) σ' = Ok true σ'' ∧
          is_valid_state σ'' = Ok true σ'' ∧ live σ'' d'' ([] ++ [m])
    | NoHint => ¬ winnable fresh
    | IndexError => False
    end.
Proof.
  split; [exact live_fresh|]. split; [exact initial_NoDup|].
  split; [exact initial_no_empty_name|]. split; [exact initial_has_farmer|].
  split; [exact no_cache_fresh|]. split; [reflexivity|].
  apply (first_hint_is_a_legal_move elements fresh initial_positions []);
    [exact live_fresh|exact initial_NoDup|exact initial_no_empty_name
    |exact initial_has_farmer|exact no_cache_fresh|reflexivity].
Defined.

(** X19: a later hint can fail.  Once a solution is cached, [hint] takes the
    entry at index [len(history)] of the list of the cached set; when the
    history has at least as many moves as the set has elements the subscript
    raises [IndexError]. *)
Theorem late_hint_raises_IndexError set_order σ d h s :
  is_set_order set_order → live σ d h →
  _cached_solutions (this σ) = Some s → s ≠ ∅ → size s ≤ length h →
  ∃ σ', hint set_order σ = Ok IndexError σ'.
Proof.
  intros Hf Hlive Hs Hne Hsize.
  pose proof (solve_cached set_order σ s Hs Hne) as Hsolve.
  eexists.
  rewrite (hint_of_solution set_order σ _ _ (set_order s) h Hsolve (lookup_snoc _ _)).
  2:{ simpl. apply lookup_app_l_Some, Hlive. }
  assert (Hlen : length (set_order s) = size s) by by rewrite (Hf s).
  rewrite bool_decide_eq_true_2.
  - rewrite (proj2 (lookup_ge_None _ _)) by lia. done.
  - intros Hnil. rewrite Hnil in Hlen. simpl in Hlen.
    symmetry in Hlen. by apply size_empty_iff, leibniz_equiv in Hlen.
Qed.
Lemma late_hint_raises_IndexError_witness :
  is_set_order elements ∧
  live five_moves_after_hint
       [("Farmer", RIGHT); ("Fox", RIGHT); ("Chicken", LEFT); ("Grain", RIGHT)]
       (take 5 classic_solution) ∧
  _cached_solutions (this five_moves_after_hint)
  = Some (list_to_set classic_solution) ∧
  (list_to_set classic_solution : gset Move) ≠ ∅ ∧
  size (list_to_set classic_solution : gset Move) ≤ length (take 5 classic_solution) ∧
  ∃ σ', hint elements five_moves_after_hint = Ok IndexError σ'.
Proof.
  assert (H : is_set_order elements) by (intros s; reflexivity).
  assert (Hlive : live five_moves_after_hint
            [("Farmer", RIGHT); ("Fox", RIGHT); ("Chicken", LEFT); ("Grain", RIGHT)]
            (take 5 classic_solution)) by (split; vm_compute; reflexivity).
  assert (Hs : _cached_solutions (this five_moves_after_hint)
               = Some (list_to_set classic_solution)) by (vm_compute; reflexivity).
  assert (Hsize : size (list_to_set classic_solution : gset Move)
                  ≤ length (take 5 classic_solution)) by (vm_compute; lia).
  split; [exact H|]. split; [exact Hlive|]. split; [exact Hs|].
  split; [exact cached_moves_not_empty|]. split; [exact Hsize|].
  exact (late_hint_raises_IndexError elements five_moves_after_hint _ _ _
           H Hlive Hs cached_moves_not_empty Hsize).
Defined.

(** ** The list [solve] returns *)

Lemma extends_length σ σ' : extends σ σ' → length (lists σ) ≤ length (lists σ').
Proof. intros (_ & _ & H). by apply prefix_length. Qed.

Section OwnList.

Variable rec : GameState → Visited → M (option loc * Visited).
Variable prec : Dict → list Move → Visited → res (option (list Move) * Visited).

Hypothesis rec_refines : ∀ st v σ d h,
  dicts σ !! positions st = Some d → lists σ !! history st = Some h →
  refines σ (rec st v σ) (prec d h v).

Hypothesis rec_own : ∀ st v σ d h,
  dicts σ !! positions st = Some d → lists σ !! history st = Some h →
  returns_own_list σ st (rec st v σ).

(** What the loop returns was made during the loop. *)
Lemma dfs_items_new_list st d h fb items : ∀ v σ,
  dicts σ !! positions st = Some d → lists σ !! history st = Some h →
  ∀ r v' σ', dfs_items rec st fb items v σ = Ok (Some r, v') σ' →
             length (lists σ) ≤ r.
Proof.
  induction items as [|item items IH]; intros v σ Hd Hh r v' σ'; [done|].
  cbn [dfs_items].
  rewrite (branch_item _ _ _ _ _ _ _ Hd Hh).
  set (σ1 := branch_store σ _ _).
  assert (Hext1 : extends σ σ1) by apply extends_branch.
  pose proof (_is_valid_state_eq _ σ1 _ (branch_store_dict σ _ _)) as Hv.
  fold σ1 in Hv.
  destruct (valid_positions (cross d item (opposite fb))) as [[|]|] eqn:Hvalid.
  - rewrite (bind_Ok _ _ _ _ _ Hv).
    pose proof (rec_refines (branch_state σ) v σ1 _ _
                  (branch_store_dict σ _ _) (branch_store_list σ _ _)) as Hrec.
    pose proof (rec_own (branch_state σ) v σ1 _ _
                  (branch_store_dict σ _ _) (branch_store_list σ _ _)) as Hown.
    destruct (prec _ _ v) as [[result v1]|e|]; simpl in Hrec.
    + destruct Hrec as (ro & σ2 & Hro & Hext2 & Hres).
      rewrite (bind_Ok _ _ _ _ _ Hro). cbn beta iota.
      rewrite (bind_Ok _ _ _ _ _ (truthy_refines _ _ _ Hres)).
      destruct (nonempty result).
      * intros [= -> <- <-]. destruct (Hown r v1 σ2 Hro) as [->|Hge].
        -- done.
        -- unfold σ1 in Hge. simpl in Hge. rewrite length_app in Hge. lia.
      * intros Hloop. apply IH in Hloop.
        -- pose proof (extends_length σ σ2 ltac:(by eapply extends_trans)). lia.
        -- eapply extends_dict; [|exact Hd]. by eapply extends_trans.
        -- eapply extends_list; [|exact Hh]. by eapply extends_trans.
    + destruct Hrec as (σ2 & Hro & Hext2). by rewrite (bind_Raised _ _ _ _ _ Hro).
    + by rewrite (bind_Abort _ _ _ _ Hrec).
  - rewrite (bind_Ok _ _ _ _ _ Hv). intros Hloop. apply IH in Hloop.
    + pose proof (extends_length σ σ1 Hext1). lia.
    + by eapply extends_dict.
    + by eapply extends_list.
  - by rewrite (bind_Raised _ _ _ _ _ Hv).
Qed.

End OwnList.

Lemma dfs_returns_own_list fuel : ∀ st v σ d h,
  dicts σ !! positions st = Some d → lists σ !! history st = Some h →
  returns_own_list σ st (dfs fuel st v σ) ∧
  (all_right d = false →
   ∀ r v' σ', dfs fuel st v σ = Ok (Some r, v') σ' → length (lists σ) ≤ r).
Proof.
  induction fuel as [|fuel IH]; intros st v σ d h Hd Hh; [done|].
  assert (Hnew : all_right d = false →
    ∀ r v' σ', dfs (S fuel) st v σ = Ok (Some r, v') σ' → length (lists σ) ≤ r).
  { intros Hgoal r v' σ'. cbn [dfs].
    rewrite (bind_Ok _ _ _ _ _ (read_dict_Ok _ _ _ Hd)). rewrite Hgoal.
    destruct (decide (state_key d ∈ v)); [done|].
    destruct (dict_get d "Farmer") as [fb|] eqn:HF.
    2:{ by rewrite (bind_Raised _ _ _ _ _ (getitem_Raised _ _ _ _ Hd HF)). }
    rewrite (bind_Ok _ _ _ _ _ (getitem_Ok _ _ _ _ _ Hd HF)).
    rewrite (branch_alone _ _ _ _ _ _ Hd Hh).
    set (σ1 := branch_store σ _ _).
    assert (Hext1 : extends σ σ1) by apply extends_branch.
    pose proof (_is_valid_state_eq _ σ1 _ (branch_store_dict σ _ _)) as Hv.
    fold σ1 in Hv.
    assert (Hitems : ∀ v0 σ0, extends σ σ0 →
      dfs_items (dfs fuel) st fb
        (filter (λ e : string * Bank, e.2 = fb ∧ e.1 ≠ "Farmer") d).*1 v0 σ0
      = Ok (Some r, v') σ' → length (lists σ) ≤ r).
    { intros v0 σ0 Hext0 Hloop.
      apply (dfs_items_new_list (dfs fuel) (search fuel) (dfs_refines fuel)
               (λ st v σ d h Hd Hh, proj1 (IH st v σ d h Hd Hh))
               st d h) in Hloop.
      - pose proof (extends_length σ σ0 Hext0). lia.
      - by eapply extends_dict.
      - by eapply extends_list. }
    destruct (valid_positions (dict_set d "Farmer" (opposite fb))) as [valid|] eqn:Hvalid.
    2:{ by rewrite (bind_Raised _ _ _ _ _ Hv). }
    rewrite (bind_Ok _ _ _ _ _ Hv).
    destruct valid.
    - pose proof (dfs_refines fuel (branch_state σ) (v ∪ {[state_key d]}) σ1 _ _
                    (branch_store_dict σ _ _) (branch_store_list σ _ _)) as Hrec.
      destruct (IH (branch_state σ) (v ∪ {[state_key d]}) σ1 _ _
                  (branch_store_dict σ _ _) (branch_store_list σ _ _)) as [Hown _].
      destruct (search fuel _ _ _) as [[result v1]|e|]; simpl in Hrec.
      + destruct Hrec as (ro & σ2 & Hro & Hext2 & Hres).
        rewrite (bind_bind_Ok _ _ _ _ _ _ Hro). cbn beta iota.
        rewrite (bind_bind_Ok _ _ _ _ _ _ (truthy_refines _ _ _ Hres)).
        unfold ret at 1, bind at 1. cbn beta iota.
        destruct (nonempty result) eqn:Hne.
        * destruct ro as [r0|].
          -- intros [= -> <- <-]. destruct (Hown r v1 σ2 Hro) as [->|Hge].
             ++ done.
             ++ unfold σ1 in Hge. simpl in Hge. rewrite length_app in Hge. lia.
          -- destruct result; [by destruct Hres as (? & ? & _)|done].
        * apply Hitems. by eapply extends_trans.
      + destruct Hrec as (σ2 & Hro & Hext2).
        by rewrite (bind_bind_Raised _ _ _ _ _ _ Hro).
      + by rewrite (bind_bind_Abort _ _ _ _ _ Hrec).
    - unfold ret at 1, bind at 1. cbn beta iota. by apply Hitems. }
  split; [|exact Hnew].
  intros r v' σ' Hdfs. destruct (all_right d) eqn:Hgoal.
  - left. cbn [dfs] in Hdfs.
    rewrite (bind_Ok _ _ _ _ _ (read_dict_Ok _ _ _ Hd)), Hgoal in Hdfs.
    by injection Hdfs as <- _ _.
  - right. by apply (Hnew eq_refl r v' σ').
Qed.
(** X20: away from the goal [solve] hands out a list of its own.  When the
    configuration is not the goal, the list an uncached [solve] returns did
    not exist before the call, so it is not the history of the game, and a
    move made afterwards does not change it. *)
Theorem solution_is_a_new_list set_order σ d h r σ' :
  live σ d h → no_cache σ → all_right d = false →
  solve set_order σ = Ok (Some r) σ' →
  lists σ !! r = None ∧ r ≠ history (state (this σ')) ∧
  ∀ item b σ'', make_move item σ' = Ok b σ'' → lists σ'' !! r = lists σ' !! r.
Proof.
  intros Hlive Hc Hgoal. rewrite solve_no_cache by done.
  unfold solve_search, get_self. unfold bind at 1. unfold bind at 1.
  pose proof (dfs_refines (search_bound σ) (state (this σ)) ∅ σ d h
                (proj1 Hlive) (proj2 Hlive)) as Href.
  destruct (dfs_returns_own_list (search_bound σ) (state (this σ)) ∅ σ d h
              (proj1 Hlive) (proj2 Hlive)) as [_ Hnew].
  specialize (Hnew Hgoal).
  destruct (dfs _ _ _ σ) as [[ro v1] σ1|e σ1|w] eqn:Hdfs; [|done|done].
  destruct (search _ d h ∅) as [[result v2]|e|]; simpl in Href; [| |done].
  2:{ by destruct Href as (? & ? & _). }
  destruct Href as (ro' & σ2 & [= <- <- <-] & Hext & Hres).
  rewrite (bind_Ok _ _ _ _ _ (truthy_refines _ _ _ Hres)).
  destruct ro as [r0|]; [|done].
  specialize (Hnew r0 v1 σ1 eq_refl).
  intros Hret.
  assert (r = r0 ∧ state (this σ') = state (this σ) ∧ live σ' d h) as (-> & Hst & Hlive').
  { pose proof (extends_live σ σ1 d h Hext Hlive) as Hl1.
    destruct Hext as (Hthis & _).
    destruct result as [l|]; [|done]. destruct Hres as (r1 & [= <-] & Hr1).
    destruct l as [|m l]; simpl in Hret.
    - injection Hret as <- <-. by rewrite Hthis.
    - unfold bind at 1 in Hret.
      rewrite (bind_Ok _ _ _ _ _ (read_list_Ok _ _ _ Hr1)) in Hret.
      unfold bind, set_self, ret in Hret. simpl in Hret.
      injection Hret as <- <-.
      split; [done|]. split; [simpl; by rewrite Hthis|exact Hl1]. }
  pose proof (lookup_lt_Some _ _ _ (proj2 Hlive)) as Hlt.
  split; [by apply lookup_ge_None|]. split; [rewrite Hst; lia|].
  intros item b σ'' Hmove.
  pose proof (make_move_move σ' d h item Hlive') as Hm.
  destruct (move d item) as [[[d' m]|]|e|]; [| | |done]; rewrite Hm in Hmove.
  - injection Hmove as _ <-. simpl. apply list_lookup_insert_ne. rewrite Hst. lia.
  - by injection Hmove as _ <-.
  - done.
Qed.

Lemma solution_is_a_new_list_witness :
  live fresh initial_positions [] ∧ no_cache fresh ∧
  all_right initial_positions = false ∧
  solve elements fresh = Ok (Some 15) (after (solve elements) fresh) ∧
  lists fresh !! 15 = None ∧
  15 ≠ history (state (this (after (solve elements) fresh))) ∧
  ∀ item b σ'',
    make_move item (after (solve elements) fresh) = Ok b σ'' →
    lists σ'' !! 15 = lists (after (solve elements) fresh) !! 15.
Proof.
  split; [exact live_fresh|]. split; [exact no_cache_fresh|]. split; [reflexivity|].
  split; [exact solve_fresh_computed|].
  apply (solution_is_a_new_list elements fresh initial_positions [] 15
           (after (solve elements) fresh));
    [exact live_fresh|exact no_cache_fresh|reflexivity|exact solve_fresh_computed].
Defined.
